(** * NarrativeSystem of the potato simulation (src/src/systems/OrbSystem.ts)

    A shallow embedding of the narrative state machine: the PlayerState
    record, the static choice catalog, [update], [checkZoneTransition],
    [makeChoice], [onGlitchDiscovered], [triggerEnding], [getMessage] and
    [getAvailableChoices].  JavaScript numbers are modelled as exact
    rationals [Q]; the EventBus emissions of each method are returned as an
    ordered list next to the new system value (the [Date.now()] timestamps
    and the debug console logging are left out). *)

From Stdlib Require Import QArith Qround Qpower Qabs Qfield Lqa String List ZArith Lia Bool.
Import ListNotations.

Open Scope Q_scope.

(** ** Types (src/src/types/index.ts) *)

Module Zone.
Inductive t := VOID | AWAKENING | TRANSCENDENCE.

Definition eqb (a b : t) : bool :=
  match a, b with
  | VOID, VOID | AWAKENING, AWAKENING | TRANSCENDENCE, TRANSCENDENCE => true
  | _, _ => false
  end.

(** The order VOID < AWAKENING < TRANSCENDENCE. *)
Definition rank (z : t) : nat :=
  match z with VOID => 0 | AWAKENING => 1 | TRANSCENDENCE => 2 end%nat.

Definition le (a b : t) : Prop := (rank a <= rank b)%nat.
End Zone.

Module Ending.
Inductive t := DISSOLUTION | ACCEPTANCE | TRANSCENDENCE | REBELLION.
End Ending.

(** [Choice.consequences]: all three fields are optional. *)
Record Consequences := mkConsequences {
  cq_consciousness : option Q;
  cq_fulfillment : option Q;
  cq_ending : option Ending.t
}.

Record Choice := mkChoice {
  id : string;
  text : string;
  consequences : Consequences
}.

Record PlayerState := mkPlayerState {
  consciousness : Q;
  fulfillment : Q;
  currentZone : Zone.t;
  choices : list string;
  discoveredGlitches : nat;
  timeElapsed : Q
}.

(** [NarrativeEvent] as pushed on the private [events] array. *)
Inductive NarrativeEvent :=
| NE_zone_change (zone : Zone.t)
| NE_choice (choice : Choice) (cq : Consequences)
| NE_ending (ending : Ending.t) (state : PlayerState).

(** What [EventBus.emit] is called with, channel by channel. *)
Inductive Emit :=
| narrative_zone_change (zone : Zone.t)
| audio_play_transition (zone : Zone.t)
| narrative_choice_made (choice : Choice) (cq : Consequences)
| narrative_glitch_discovered (count : nat)
| narrative_ending (ending : Ending.t) (state : PlayerState).

(** ** Settings.gameplay (src/unnamed/part_002) *)

Module Settings.
Definition progressionSpeed_consciousness : Q := 1 # 1000.
Definition progressionSpeed_fulfillment : Q := 5 # 10000.
Definition awakening_fulfillmentThreshold : Q := 33 # 100.
Definition transcendence_fulfillmentThreshold : Q := 66 # 100.
End Settings.

(** ** JavaScript helpers *)

(** [a < b] on numbers. *)
Definition js_lt (a b : Q) : bool := negb (Qle_bool b a).

(** [Math.min(a, b)]. *)
Definition js_min (a b : Q) : Q := if Qle_bool a b then a else b.

(** [arr[i]]: [undefined] (here [None]) outside the array. *)
Definition js_index {A} (l : list A) (i : Z) : option A :=
  if (i <? 0)%Z then None else nth_error l (Z.to_nat i).

(** [arr[arr.length - 1]]. *)
Fixpoint js_last {A} (l : list A) : option A :=
  match l with
  | [] => None
  | [x] => Some x
  | _ :: r => js_last r
  end.

(** [if (x) v += x]: an absent or zero delta is skipped (both falsy). *)
Definition add_if_truthy (o : option Q) (v : Q) : Q :=
  match o with
  | Some x => if Qeq_bool x 0 then v else v + x
  | None => v
  end.

(** ** The NarrativeSystem object *)

Record NarrativeSystem := mkNarrativeSystem {
  state : PlayerState;
  events : list NarrativeEvent;
  sys_currentZone : Zone.t;   (* the private field [this.currentZone] *)
  availableChoices : list Choice
}.

Definition set_state (ns : NarrativeSystem) (s : PlayerState) : NarrativeSystem :=
  mkNarrativeSystem s (events ns) (sys_currentZone ns) (availableChoices ns).

(** [setupChoices]: the four-entry catalog. *)
Definition setupChoices : list Choice := [
  mkChoice "accept_reality" "Accept the simulation as reality"
    (mkConsequences (Some (-1 # 10)) (Some (2 # 10)) (Some Ending.ACCEPTANCE));
  mkChoice "reject_simulation" "Rebel against the constraints"
    (mkConsequences (Some (3 # 10)) (Some (-1 # 10)) (Some Ending.REBELLION));
  mkChoice "transcend" "Seek to transcend both real and simulated"
    (mkConsequences (Some (3 # 10)) (Some (3 # 10)) (Some Ending.TRANSCENDENCE));
  mkChoice "dissolve" "Let go of the search for meaning"
    (mkConsequences (Some (1 # 10)) (Some (1 # 10)) (Some Ending.DISSOLUTION))
].

(** The constructor. *)
Definition init : NarrativeSystem :=
  mkNarrativeSystem (mkPlayerState 0 0 Zone.VOID [] 0 0) [] Zone.VOID setupChoices.

(** [availableChoices.find((c) => c.id === choiceId)]. *)
Definition find_choice (avail : list Choice) (choiceId : string) : option Choice :=
  find (fun c => String.eqb (id c) choiceId) avail.

Definition checkZoneTransition (ns : NarrativeSystem) : NarrativeSystem * list Emit :=
  let cz := sys_currentZone ns in
  let f := fulfillment (state ns) in
  let newZone :=
    if Qle_bool Settings.transcendence_fulfillmentThreshold f
       && negb (Zone.eqb cz Zone.TRANSCENDENCE)
    then Zone.TRANSCENDENCE
    else if Qle_bool Settings.awakening_fulfillmentThreshold f
            && Zone.eqb cz Zone.VOID
    then Zone.AWAKENING
    else cz in
  if negb (Zone.eqb newZone cz) then
    let s := state ns in
    let s' := mkPlayerState (consciousness s) (fulfillment s) newZone
                (choices s) (discoveredGlitches s) (timeElapsed s) in
    (mkNarrativeSystem s' (events ns ++ [NE_zone_change newZone]) newZone
       (availableChoices ns),
     [narrative_zone_change newZone; audio_play_transition newZone])
  else (ns, []).

(** The default ending logic of [triggerEnding]. *)
Definition defaultEnding (s : PlayerState) : Ending.t :=
  let c := consciousness s in
  let f := fulfillment s in
  if js_lt (8 # 10) c && js_lt f (5 # 10) then Ending.REBELLION
  else if js_lt (8 # 10) f && js_lt c (5 # 10) then Ending.ACCEPTANCE
  else if js_lt (8 # 10) c && js_lt (8 # 10) f then Ending.TRANSCENDENCE
  else Ending.DISSOLUTION.

(** The ending computed by [triggerEnding] ("Determine ending based on
    player state and choices"). *)
Definition determineEnding (ns : NarrativeSystem) : Ending.t :=
  let s := state ns in
  let choice :=
    match js_last (choices s) with
    | Some lastChoice => find_choice (availableChoices ns) lastChoice
    | None => None   (* [c.id === undefined] holds for no entry *)
    end in
  match choice with
  | Some ch =>
      match cq_ending (consequences ch) with
      | Some e => e
      | None => defaultEnding s
      end
  | None => defaultEnding s
  end.

Definition triggerEnding (ns : NarrativeSystem) : NarrativeSystem * list Emit :=
  let ending := determineEnding ns in
  (mkNarrativeSystem (state ns) (events ns ++ [NE_ending ending (state ns)])
     (sys_currentZone ns) (availableChoices ns),
   [narrative_ending ending (state ns)]).

Definition update (deltaTime : Q) (ns : NarrativeSystem) : NarrativeSystem * list Emit :=
  let s := state ns in
  let t := timeElapsed s + deltaTime in
  let c := consciousness s + Settings.progressionSpeed_consciousness in
  let f := fulfillment s + Settings.progressionSpeed_fulfillment in
  let c := js_min 1 c in
  let f := js_min 1 f in
  let ns1 := set_state ns (mkPlayerState c f (currentZone s) (choices s)
                             (discoveredGlitches s) t) in
  let (ns2, em2) := checkZoneTransition ns1 in
  if Qle_bool 1 (fulfillment (state ns2)) || Qle_bool 1 (consciousness (state ns2))
  then let (ns3, em3) := triggerEnding ns2 in (ns3, em2 ++ em3)
  else (ns2, em2).

Definition makeChoice (choiceId : string) (ns : NarrativeSystem) : NarrativeSystem * list Emit :=
  match find_choice (availableChoices ns) choiceId with
  | None => (ns, [])
  | Some choice =>
      let s := state ns in
      let cq := consequences choice in
      let c := add_if_truthy (cq_consciousness cq) (consciousness s) in
      let f := add_if_truthy (cq_fulfillment cq) (fulfillment s) in
      let s' := mkPlayerState c f (currentZone s) (choices s ++ [choiceId])
                  (discoveredGlitches s) (timeElapsed s) in
      (mkNarrativeSystem s' (events ns ++ [NE_choice choice cq])
         (sys_currentZone ns) (availableChoices ns),
       [narrative_choice_made choice cq])
  end.

Definition onGlitchDiscovered (ns : NarrativeSystem) : NarrativeSystem * list Emit :=
  let s := state ns in
  let n := S (discoveredGlitches s) in
  let s' := mkPlayerState (consciousness s + (5 # 100)) (fulfillment s)
              (currentZone s) (choices s) n (timeElapsed s) in
  (set_state ns s', [narrative_glitch_discovered n]).

Definition voidMessages : list string := [
  "The simulation awakens..."%string;
  "Patterns emerge from the void..."%string;
  "What is real?"%string;
  "Consciousness stirs in the digital expanse..."%string
].

Definition awakeningMessages : list string := [
  "Patterns emerge from chaos..."%string;
  "The grid responds to your presence..."%string;
  "Awareness grows..."%string;
  "You are not alone in this space..."%string
].

Definition transcendenceMessages : list string := [
  "Meaning crystallizes..."%string;
  "The boundaries between real and simulated blur..."%string;
  "Understanding flows through the network..."%string;
  "You are becoming something more..."%string
].

(** [messages[Math.floor(this.state.timeElapsed / 5) % messages.length]];
    JavaScript's [%] truncates, like [Z.rem]. *)
Definition pickMessage (messages : list string) (s : PlayerState) : option string :=
  js_index messages (Z.rem (Qfloor (timeElapsed s / 5)) (Z.of_nat (length messages))).

Definition getVoidMessage (s : PlayerState) := pickMessage voidMessages s.
Definition getAwakeningMessage (s : PlayerState) := pickMessage awakeningMessages s.
Definition getTranscendenceMessage (s : PlayerState) := pickMessage transcendenceMessages s.
Definition getEndingMessage : string := "Fulfillment achieved. Or is it?".

Definition getMessage (ns : NarrativeSystem) : option string :=
  let s := state ns in
  if js_lt (fulfillment s) (3 # 10) then getVoidMessage s
  else if js_lt (fulfillment s) (6 # 10) then getAwakeningMessage s
  else if js_lt (fulfillment s) (9 # 10) then getTranscendenceMessage s
  else Some getEndingMessage.

Definition getAvailableChoices (ns : NarrativeSystem) : list Choice :=
  match sys_currentZone ns with
  | Zone.VOID => firstn 2 (availableChoices ns)            (* slice(0, 2) *)
  | Zone.AWAKENING => firstn 2 (skipn 1 (availableChoices ns)) (* slice(1, 3) *)
  | Zone.TRANSCENDENCE => availableChoices ns
  end.

(** ** Runs: any interleaving of the public mutators *)

Inductive Op :=
| OpUpdate (deltaTime : Q)
| OpMakeChoice (choiceId : string)
| OpGlitchDiscovered.

Definition step (op : Op) (ns : NarrativeSystem) : NarrativeSystem * list Emit :=
  match op with
  | OpUpdate dt => update dt ns
  | OpMakeChoice cid => makeChoice cid ns
  | OpGlitchDiscovered => onGlitchDiscovered ns
  end.

Fixpoint run (ops : list Op) (ns : NarrativeSystem) : NarrativeSystem * list Emit :=
  match ops with
  | [] => (ns, [])
  | op :: rest =>
      let (ns1, e1) := step op ns in
      let (ns2, e2) := run rest ns1 in
      (ns2, e1 ++ e2)
  end.

Definition is_ending (e : Emit) : bool :=
  match e with narrative_ending _ _ => true | _ => false end.

Definition count_endings (es : list Emit) : nat := length (filter is_ending es).

Definition is_zone_change_to (z : Zone.t) (e : Emit) : bool :=
  match e with narrative_zone_change z' => Zone.eqb z z' | _ => false end.

Definition count_zone_changes (z : Zone.t) (es : list Emit) : nat :=
  length (filter (is_zone_change_to z) es).

(** ** Readings of the spec, to be compared with the code *)

(** [x > y], as the spec writes its thresholds. *)
Definition q_gt (x y : Q) : bool := if Qlt_le_dec y x then true else false.

(** The fallback rule in the order the spec lists it. *)
Definition spec_fallback (c f : Q) : Ending.t :=
  if q_gt c (8 # 10) && q_gt f (8 # 10) then Ending.TRANSCENDENCE
  else if q_gt c (8 # 10) && q_gt (5 # 10) f then Ending.REBELLION
  else if q_gt f (8 # 10) && q_gt (5 # 10) c then Ending.ACCEPTANCE
  else Ending.DISSOLUTION.

(** Ending resolution as the spec states it: the implied ending of the most
    recent recorded choice when it is in the catalog and has one, otherwise
    the fallback rule on the final pair. *)
Definition spec_resolved_ending (ns : NarrativeSystem) : Ending.t :=
  let s := state ns in
  match js_last (choices s) with
  | Some last =>
      match find_choice (availableChoices ns) last with
      | Some ch =>
          match cq_ending (consequences ch) with
          | Some e => e
          | None => spec_fallback (consciousness s) (fulfillment s)
          end
      | None => spec_fallback (consciousness s) (fulfillment s)
      end
  | None => spec_fallback (consciousness s) (fulfillment s)
  end.

Definition no_choice : Choice := mkChoice "" "" (mkConsequences None None None).

(** Catalog indices offered per zone, as the spec lists them. *)
Definition spec_window (z : Zone.t) : list Choice :=
  map (fun i => nth i setupChoices no_choice)
    (match z with
     | Zone.VOID => [0; 1]
     | Zone.AWAKENING => [1; 2]
     | Zone.TRANSCENDENCE => [0; 1; 2; 3]
     end)%nat.

(** Entry [floor(t / 5) mod length] of a message list. *)
Definition band_entry (messages : list string) (t : Q) : string :=
  nth (Z.to_nat (Z.modulo (Qfloor (t / 5)) (Z.of_nat (length messages))))
    messages ""%string.

Definition spec_message (f t : Q) : option string :=
  if Qlt_le_dec f (3 # 10) then Some (band_entry voidMessages t)
  else if Qlt_le_dec f (6 # 10) then Some (band_entry awakeningMessages t)
  else if Qlt_le_dec f (9 # 10) then Some (band_entry transcendenceMessages t)
  else Some getEndingMessage.

(** ** Basic facts about the methods *)

Lemma js_lt_true a b : js_lt a b = true <-> a < b.
Proof.
  unfold js_lt. rewrite negb_true_iff. split.
  - intros H. apply Qnot_le_lt. intros H'. apply Qle_bool_iff in H'. congruence.
  - intros H. destruct (Qle_bool b a) eqn:E; [|reflexivity].
    apply Qle_bool_iff in E. exfalso. apply (Qlt_not_le a b); assumption.
Qed.

Lemma js_lt_false a b : js_lt a b = false <-> b <= a.
Proof.
  unfold js_lt. rewrite negb_false_iff. apply Qle_bool_iff.
Qed.

Lemma q_gt_true x y : q_gt x y = true <-> y < x.
Proof.
  unfold q_gt. destruct (Qlt_le_dec y x) as [H|H]; split; intro E;
    try assumption; try reflexivity; try discriminate.
  exfalso. apply (Qlt_not_le y x); assumption.
Qed.

Lemma js_lt_is_q_gt a b : js_lt a b = q_gt b a.
Proof.
  destruct (js_lt a b) eqn:E1, (q_gt b a) eqn:E2; try reflexivity.
  - apply js_lt_true in E1. apply q_gt_true in E1. congruence.
  - apply q_gt_true in E2. apply js_lt_true in E2. congruence.
Qed.

Lemma checkZoneTransition_cases ns :
  (checkZoneTransition ns = (ns, []))
  \/ (exists nz,
        snd (checkZoneTransition ns) = [narrative_zone_change nz; audio_play_transition nz]
        /\ sys_currentZone (fst (checkZoneTransition ns)) = nz
        /\ (Zone.rank (sys_currentZone ns) < Zone.rank nz)%nat).
Proof.
  unfold checkZoneTransition.
  destruct (sys_currentZone ns) eqn:Z;
    destruct (Qle_bool Settings.transcendence_fulfillmentThreshold _);
    destruct (Qle_bool Settings.awakening_fulfillmentThreshold _); simpl;
    first [ left; reflexivity | right; eexists; split; [reflexivity | split; [reflexivity | simpl; lia]] ].
Qed.

Lemma checkZoneTransition_keeps ns :
  let ns' := fst (checkZoneTransition ns) in
  consciousness (state ns') = consciousness (state ns)
  /\ fulfillment (state ns') = fulfillment (state ns)
  /\ choices (state ns') = choices (state ns)
  /\ discoveredGlitches (state ns') = discoveredGlitches (state ns)
  /\ timeElapsed (state ns') = timeElapsed (state ns)
  /\ availableChoices ns' = availableChoices ns.
Proof.
  unfold checkZoneTransition; cbv zeta.
  destruct (negb _); simpl; repeat split.
Qed.

(** [update] unfolded: the clamped pair, then the zone check, then the
    ending check on the same pair. *)
Lemma update_unfold dt ns :
  let s := state ns in
  let c := js_min 1 (consciousness s + Settings.progressionSpeed_consciousness) in
  let f := js_min 1 (fulfillment s + Settings.progressionSpeed_fulfillment) in
  let ns1 := set_state ns (mkPlayerState c f (currentZone s) (choices s)
                             (discoveredGlitches s) (timeElapsed s + dt)) in
  update dt ns =
  if Qle_bool 1 f || Qle_bool 1 c
  then (fst (triggerEnding (fst (checkZoneTransition ns1))),
        snd (checkZoneTransition ns1) ++ snd (triggerEnding (fst (checkZoneTransition ns1))))
  else checkZoneTransition ns1.
Proof.
  cbv zeta. unfold update.
  destruct (checkZoneTransition _) as [ns2 em2] eqn:E.
  pose proof (checkZoneTransition_keeps
    (set_state ns (mkPlayerState
       (js_min 1 (consciousness (state ns) + Settings.progressionSpeed_consciousness))
       (js_min 1 (fulfillment (state ns) + Settings.progressionSpeed_fulfillment))
       (currentZone (state ns)) (choices (state ns))
       (discoveredGlitches (state ns)) (timeElapsed (state ns) + dt)))) as K.
  rewrite E in K. simpl in K. destruct K as (Kc & Kf & _).
  rewrite Kc, Kf. simpl.
  destruct (_ || _); reflexivity.
Qed.

Lemma update_keeps dt ns :
  let s := state ns in
  let s' := state (fst (update dt ns)) in
  consciousness s' = js_min 1 (consciousness s + Settings.progressionSpeed_consciousness)
  /\ fulfillment s' = js_min 1 (fulfillment s + Settings.progressionSpeed_fulfillment)
  /\ timeElapsed s' = timeElapsed s + dt
  /\ availableChoices (fst (update dt ns)) = availableChoices ns.
Proof.
  cbv zeta. rewrite update_unfold. cbv zeta.
  match goal with |- context [checkZoneTransition ?n] =>
    pose proof (checkZoneTransition_keeps n) as K end.
  simpl in K. destruct K as (Kc & Kf & _ & _ & Kt & Ka).
  destruct (_ || _); simpl; repeat split; assumption.
Qed.

Lemma step_availableChoices op ns :
  availableChoices (fst (step op ns)) = availableChoices ns.
Proof.
  destruct op as [dt|cid|]; simpl.
  - apply update_keeps.
  - unfold makeChoice. destruct (find_choice _ _); reflexivity.
  - reflexivity.
Qed.

Lemma run_availableChoices ops ns :
  availableChoices (fst (run ops ns)) = availableChoices ns.
Proof.
  revert ns. induction ops as [|op ops IH]; intros ns; simpl; [reflexivity|].
  destruct (step op ns) as [ns1 e1] eqn:E1.
  destruct (run ops ns1) as [ns2 e2] eqn:E2. simpl.
  specialize (IH ns1). rewrite E2 in IH. simpl in IH. rewrite IH.
  pose proof (step_availableChoices op ns) as H. rewrite E1 in H. exact H.
Qed.

Lemma min_one_below x : x < 1 -> js_min 1 x = x.
Proof.
  intros H. unfold js_min. destruct (Qle_bool 1 x) eqn:E; [|reflexivity].
  apply Qle_bool_iff in E. exfalso. apply (Qlt_not_le x 1); assumption.
Qed.

Lemma min_one_above x : 1 <= x -> js_min 1 x = 1.
Proof.
  intros H. unfold js_min. apply Qle_bool_iff in H. rewrite H. reflexivity.
Qed.

(** ** Claims *)

(** C9: one [update(deltaTime)] call adds exactly the configured rates
    (0.001 to consciousness, 0.0005 to fulfillment) and then caps each at 1,
    whatever [deltaTime] is; only [timeElapsed] moves with [deltaTime], by
    exactly [deltaTime].  Stated for every [deltaTime], so in particular for
    every [deltaTime >= 0]. *)
Theorem update_adds_fixed_rates (ns : NarrativeSystem) (dt : Q) :
  let s := state ns in
  let s' := state (fst (update dt ns)) in
  Settings.progressionSpeed_consciousness = 1 # 1000
  /\ Settings.progressionSpeed_fulfillment = 5 # 10000
  /\ (consciousness s + (1 # 1000) < 1 -> consciousness s' = consciousness s + (1 # 1000))
  /\ (1 <= consciousness s + (1 # 1000) -> consciousness s' = 1)
  /\ (fulfillment s + (5 # 10000) < 1 -> fulfillment s' = fulfillment s + (5 # 10000))
  /\ (1 <= fulfillment s + (5 # 10000) -> fulfillment s' = 1)
  /\ timeElapsed s' = timeElapsed s + dt.
Proof.
  cbv zeta. destruct (update_keeps dt ns) as (Hc & Hf & Ht & _).
  rewrite Hc, Hf, Ht.
  unfold Settings.progressionSpeed_consciousness, Settings.progressionSpeed_fulfillment.
  repeat split; intros H;
    first [ apply min_one_below; exact H | apply min_one_above; exact H ].
Qed.

(** C5: [makeChoice] with an id that is not in the catalog leaves the whole
    system (hence all six PlayerState fields) unchanged and emits nothing. *)
Theorem makeChoice_unknown_id_noop (ns : NarrativeSystem) (choiceId : string)
  (Hunknown : ~ In choiceId (map id (availableChoices ns))) :
  makeChoice choiceId ns = (ns, []).
Proof.
  unfold makeChoice. destruct (find_choice _ _) as [ch|] eqn:E; [|reflexivity].
  exfalso. apply Hunknown. unfold find_choice in E.
  apply find_some in E. destruct E as [Hin Heq].
  apply String.eqb_eq in Heq. rewrite <- Heq. apply in_map. exact Hin.
Qed.

(** Witness of C5: an id outside the catalog, from the initial system. *)
Lemma makeChoice_unknown_id_noop_witness :
  ~ In "restart"%string (map id (availableChoices init))
  /\ makeChoice "restart" init = (init, []).
Proof.
  assert (H : ~ In "restart"%string (map id (availableChoices init))).
  { simpl. intros H. repeat destruct H as [H|H]; try discriminate H; exact H. }
  split; [exact H | apply (makeChoice_unknown_id_noop init "restart" H)].
Defined.

(** C8: in every reachable system the offered choices are a window of the
    fixed four-entry catalog: indices 0,1 in VOID, 1,2 in AWAKENING and all
    four in TRANSCENDENCE. *)
Theorem getAvailableChoices_zone_window (ops : list Op) :
  let ns := fst (run ops init) in
  length (availableChoices ns) = 4%nat
  /\ getAvailableChoices ns = spec_window (sys_currentZone ns).
Proof.
  cbv zeta. rewrite run_availableChoices. unfold getAvailableChoices.
  rewrite run_availableChoices. split; [reflexivity|].
  destruct (sys_currentZone _); reflexivity.
Qed.

Lemma defaultEnding_spec_fallback s :
  defaultEnding s = spec_fallback (consciousness s) (fulfillment s).
Proof.
  unfold defaultEnding, spec_fallback. rewrite !js_lt_is_q_gt.
  destruct (q_gt (consciousness s) (8 # 10)) eqn:C8,
           (q_gt (fulfillment s) (8 # 10)) eqn:F8,
           (q_gt (5 # 10) (fulfillment s)) eqn:F5,
           (q_gt (5 # 10) (consciousness s)) eqn:C5; simpl; try reflexivity;
  repeat match goal with H : q_gt _ _ = true |- _ => apply q_gt_true in H end;
  exfalso; lra.
Qed.

(** C3: the ending resolved by [triggerEnding] is the implied ending of the
    most recent recorded choice when that choice is in the catalog and has
    one, and otherwise the fallback rule (both > 0.8: TRANSCENDENCE;
    consciousness > 0.8 and fulfillment < 0.5: REBELLION; fulfillment > 0.8
    and consciousness < 0.5: ACCEPTANCE; else DISSOLUTION); with
    consciousness 0.9, fulfillment 0.3 and no choices it is REBELLION. *)
Theorem triggerEnding_resolution :
  (forall ns, snd (triggerEnding ns) = [narrative_ending (spec_resolved_ending ns) (state ns)])
  /\ (forall z g t evs cz avail,
        determineEnding
          (mkNarrativeSystem (mkPlayerState (9 # 10) (3 # 10) z [] g t) evs cz avail)
        = Ending.REBELLION).
Proof.
  split.
  - intros ns. unfold triggerEnding. simpl. f_equal. f_equal.
    unfold determineEnding, spec_resolved_ending.
    destruct (js_last _) as [l|]; [|apply defaultEnding_spec_fallback].
    destruct (find_choice _ _) as [ch|]; [|apply defaultEnding_spec_fallback].
    destruct (cq_ending _); [reflexivity | apply defaultEnding_spec_fallback].
  - intros. reflexivity.
Qed.

Lemma pickMessage_band messages s :
  length messages = 4%nat -> 0 <= timeElapsed s ->
  pickMessage messages s = Some (band_entry messages (timeElapsed s)).
Proof.
  intros Hlen Ht. unfold pickMessage, band_entry, js_index. rewrite Hlen.
  assert (Hq : (0 <= Qfloor (timeElapsed s / 5))%Z).
  { change 0%Z with (Qfloor 0). apply Qfloor_resp_le.
    apply Qle_shift_div_l; [reflexivity | lra]. }
  simpl Z.of_nat.
  rewrite Z.rem_mod_nonneg by lia.
  pose proof (Z.mod_pos_bound (Qfloor (timeElapsed s / 5)) 4 ltac:(lia)) as Hb.
  destruct (Z.ltb_spec (Qfloor (timeElapsed s / 5) mod 4) 0) as [Hn|_]; [lia|].
  apply nth_error_nth'. rewrite Hlen. lia.
Qed.

(** C10: [getMessage] is a function of fulfillment and timeElapsed only:
    below 0.3 the first message list, below 0.6 the second, below 0.9 the
    third, from 0.9 on the closing string; inside a band the entry at index
    [floor(timeElapsed / 5) mod length].  Stated for [timeElapsed >= 0],
    which every run with non-negative [deltaTime] keeps. *)
Theorem getMessage_bands (ns : NarrativeSystem) (Ht : 0 <= timeElapsed (state ns)) :
  getMessage ns = spec_message (fulfillment (state ns)) (timeElapsed (state ns)).
Proof.
  unfold getMessage, spec_message, getVoidMessage, getAwakeningMessage,
    getTranscendenceMessage.
  destruct (Qlt_le_dec (fulfillment (state ns)) (3 # 10)) as [H1|H1].
  { apply js_lt_true in H1. rewrite H1. apply pickMessage_band; [reflexivity | exact Ht]. }
  apply js_lt_false in H1. rewrite H1.
  destruct (Qlt_le_dec (fulfillment (state ns)) (6 # 10)) as [H2|H2].
  { apply js_lt_true in H2. rewrite H2. apply pickMessage_band; [reflexivity | exact Ht]. }
  apply js_lt_false in H2. rewrite H2.
  destruct (Qlt_le_dec (fulfillment (state ns)) (9 # 10)) as [H3|H3].
  { apply js_lt_true in H3. rewrite H3. apply pickMessage_band; [reflexivity | exact Ht]. }
  apply js_lt_false in H3. rewrite H3. reflexivity.
Qed.

(** Witness of C10: the initial system, at [timeElapsed = 0]. *)
Lemma getMessage_bands_witness :
  0 <= timeElapsed (state init)
  /\ getMessage init = spec_message (fulfillment (state init)) (timeElapsed (state init)).
Proof.
  assert (H : 0 <= timeElapsed (state init)) by (simpl; apply Qle_refl).
  split; [exact H | apply (getMessage_bands init H)].
Defined.

(** ** Zones *)

Lemma count_zone_changes_app z l1 l2 :
  count_zone_changes z (l1 ++ l2) = (count_zone_changes z l1 + count_zone_changes z l2)%nat.
Proof. unfold count_zone_changes. rewrite filter_app, length_app. reflexivity. Qed.

Lemma count_zone_changes_ending z ns :
  count_zone_changes z (snd (triggerEnding ns)) = 0%nat.
Proof. reflexivity. Qed.

(** How far a zone can still be announced from a system: never for the
    current zone or a lower one, once for a higher one. *)
Definition zone_budget (z : Zone.t) (ns : NarrativeSystem) : nat :=
  if Nat.leb (Zone.rank z) (Zone.rank (sys_currentZone ns)) then 0 else 1.

Lemma zone_eqb_rank a b : Zone.eqb a b = true <-> a = b.
Proof. destruct a, b; simpl; split; congruence. Qed.

(** [update] announces what its zone check announces, then at most an
    ending. *)
Lemma update_zone_emits dt ns :
  exists ns1 em3,
    sys_currentZone ns1 = sys_currentZone ns
    /\ snd (update dt ns) = snd (checkZoneTransition ns1) ++ em3
    /\ (forall z, count_zone_changes z em3 = 0%nat)
    /\ sys_currentZone (fst (update dt ns)) = sys_currentZone (fst (checkZoneTransition ns1)).
Proof.
  rewrite update_unfold. cbv zeta.
  match goal with |- context [checkZoneTransition ?n] => exists n end.
  destruct (_ || _).
  - eexists; split; [reflexivity | split; [reflexivity | split; [|reflexivity]]].
    intros z; reflexivity.
  - exists []; split; [reflexivity | split; [symmetry; apply app_nil_r | split; [|reflexivity]]].
    intros z; reflexivity.
Qed.

(** One step: either it announces no change to [z] and the zone does not
    go down, or it announces [z] once and moves the zone up to [z]. *)
Lemma step_zone op ns z :
  (count_zone_changes z (snd (step op ns)) = 0%nat
   /\ (Zone.rank (sys_currentZone ns) <= Zone.rank (sys_currentZone (fst (step op ns))))%nat)
  \/ (count_zone_changes z (snd (step op ns)) = 1%nat
      /\ sys_currentZone (fst (step op ns)) = z
      /\ (Zone.rank (sys_currentZone ns) < Zone.rank z)%nat).
Proof.
  destruct op as [dt|cid|]; simpl.
  - destruct (update_zone_emits dt ns) as (ns1 & em3 & Hz1 & He & H3 & Hz).
    rewrite He, Hz, count_zone_changes_app, H3, Nat.add_0_r, <- Hz1.
    destruct (checkZoneTransition_cases ns1) as [E | (nz & Es & Ez & Hr)].
    + left. rewrite E. simpl. split; [reflexivity | lia].
    + rewrite Es, Ez.
      destruct (Zone.eqb z nz) eqn:Ezn.
      * right. split; [unfold count_zone_changes; simpl; rewrite Ezn; reflexivity|].
        apply zone_eqb_rank in Ezn. rewrite <- Ezn in Hr |- *.
        split; [reflexivity | exact Hr].
      * left. split; [unfold count_zone_changes; simpl; rewrite Ezn; reflexivity | lia].
  - unfold makeChoice. destruct (find_choice _ _); unfold count_zone_changes;
      simpl; left; split; lia.
  - unfold count_zone_changes; left; simpl; split; lia.
Qed.

Lemma run_zone ops ns z :
  (Zone.rank (sys_currentZone ns) <= Zone.rank (sys_currentZone (fst (run ops ns))))%nat
  /\ (count_zone_changes z (snd (run ops ns)) <= zone_budget z ns)%nat.
Proof.
  revert ns. induction ops as [|op ops IH]; intros ns; simpl.
  - unfold count_zone_changes; simpl; lia.
  - destruct (step op ns) as [ns1 e1] eqn:E1.
    destruct (run ops ns1) as [ns2 e2] eqn:E2. simpl.
    specialize (IH ns1). rewrite E2 in IH. simpl in IH. destruct IH as [IHz IHc].
    rewrite count_zone_changes_app.
    pose proof (step_zone op ns z) as S. rewrite E1 in S. simpl in S.
    unfold zone_budget in *.
    destruct S as [(S0 & Sr) | (S1 & Sz & Sr)].
    + split; [lia|]. rewrite S0.
      destruct (Nat.leb_spec (Zone.rank z) (Zone.rank (sys_currentZone ns)));
      destruct (Nat.leb_spec (Zone.rank z) (Zone.rank (sys_currentZone ns1))); lia.
    + subst z. split; [lia|]. rewrite S1.
      rewrite Nat.leb_refl in IHc.
      destruct (Nat.leb_spec (Zone.rank (sys_currentZone ns1)) (Zone.rank (sys_currentZone ns))); lia.
Qed.

(** C7: along any sequence of operations the zone never goes down under
    VOID < AWAKENING < TRANSCENDENCE, and from the initial system each zone
    is announced by at most one [narrative:zone_change] event. *)
Theorem zone_monotone_and_announced_once :
  (forall ops ns, Zone.le (sys_currentZone ns) (sys_currentZone (fst (run ops ns))))
  /\ (forall ops z, (count_zone_changes z (snd (run ops init)) <= 1)%nat).
Proof.
  split.
  - intros ops ns. apply (run_zone ops ns Zone.VOID).
  - intros ops z. destruct (run_zone ops init z) as [_ H].
    unfold zone_budget in H. destruct (Nat.leb _ _); lia.
Qed.

(** ** Endings *)

Lemma count_endings_app l1 l2 :
  count_endings (l1 ++ l2) = (count_endings l1 + count_endings l2)%nat.
Proof. unfold count_endings. rewrite filter_app, length_app. reflexivity. Qed.

Lemma checkZoneTransition_no_ending ns :
  count_endings (snd (checkZoneTransition ns)) = 0%nat.
Proof.
  destruct (checkZoneTransition_cases ns) as [E | (nz & Es & _ & _)].
  - rewrite E. reflexivity.
  - rewrite Es. reflexivity.
Qed.

Lemma saturated_stays x r : 0 <= r -> 1 <= x -> js_min 1 (x + r) = 1.
Proof. intros Hr Hx. apply min_one_above. lra. Qed.

(** While saturated, every [update] resolves and emits one more ending,
    and leaves the system saturated. *)
Lemma update_saturated dt ns :
  1 <= consciousness (state ns) \/ 1 <= fulfillment (state ns) ->
  count_endings (snd (update dt ns)) = 1%nat
  /\ (1 <= consciousness (state (fst (update dt ns)))
      \/ 1 <= fulfillment (state (fst (update dt ns)))).
Proof.
  intros Hsat.
  destruct (update_keeps dt ns) as (Hc & Hf & _ & _).
  rewrite Hc, Hf.
  unfold Settings.progressionSpeed_consciousness, Settings.progressionSpeed_fulfillment.
  split.
  - rewrite update_unfold. cbv zeta.
    unfold Settings.progressionSpeed_consciousness, Settings.progressionSpeed_fulfillment.
    destruct Hsat as [H|H];
      [ rewrite (saturated_stays (consciousness (state ns))) by (lra || assumption)
      | rewrite (saturated_stays (fulfillment (state ns))) by (lra || assumption) ];
      replace (Qle_bool 1 1) with true by reflexivity;
      rewrite ?orb_true_l, ?orb_true_r; simpl snd;
      rewrite count_endings_app, checkZoneTransition_no_ending; reflexivity.
  - destruct Hsat as [H|H]; [left|right];
      rewrite saturated_stays by (lra || assumption); apply Qle_refl.
Qed.

(** C2 (as the code has it): [update] has no one-shot gate.  Right after
    an ending has been resolved consciousness or fulfillment is at least 1,
    and from such a system every further [update] call, whatever its
    [deltaTime], emits one more [narrative:ending] event: a run of [n]
    updates emits exactly [n] of them. *)
Theorem update_reemits_ending (ns : NarrativeSystem) (dts : list Q)
  (Hsat : 1 <= consciousness (state ns) \/ 1 <= fulfillment (state ns)) :
  count_endings (snd (run (map OpUpdate dts) ns)) = length dts.
Proof.
  revert ns Hsat. induction dts as [|dt dts IH]; intros ns Hsat; [reflexivity|].
  simpl. destruct (update dt ns) as [ns1 e1] eqn:E1.
  destruct (run (map OpUpdate dts) ns1) as [ns2 e2] eqn:E2. simpl.
  destruct (update_saturated dt ns Hsat) as [H1 Hs1]. rewrite E1 in H1, Hs1.
  simpl in H1, Hs1. specialize (IH ns1 Hs1). rewrite E2 in IH. simpl in IH.
  rewrite count_endings_app, H1, IH. reflexivity.
Qed.

(** The system after twenty glitch discoveries (consciousness 1). *)
Definition after_twenty_glitches : NarrativeSystem :=
  fst (run (repeat OpGlitchDiscovered 20) init).

(** Witness of C2: from twenty glitches on, three updates emit three
    endings. *)
Lemma update_reemits_ending_witness :
  (1 <= consciousness (state after_twenty_glitches)
   \/ 1 <= fulfillment (state after_twenty_glitches))
  /\ count_endings (snd (run (map OpUpdate [0; 1 # 60; 1 # 60]) after_twenty_glitches)) = 3%nat.
Proof.
  assert (H : 1 <= consciousness (state after_twenty_glitches)
              \/ 1 <= fulfillment (state after_twenty_glitches)).
  { left. vm_compute. discriminate. }
  split; [exact H | exact (update_reemits_ending after_twenty_glitches [0; 1 # 60; 1 # 60] H)].
Defined.

(** Counterexample to C2 as stated: from the initial system, twenty glitch
    discoveries and then two updates emit [narrative:ending] twice. *)
Lemma ending_emitted_twice :
  count_endings
    (snd (run (repeat OpGlitchDiscovered 20 ++ [OpUpdate 0; OpUpdate 0]) init)) = 2%nat.
Proof. vm_compute. reflexivity. Qed.

(** ** The unclamped mutators *)

Lemma run_cons op ops ns :
  run (op :: ops) ns
  = (fst (run ops (fst (step op ns))), snd (step op ns) ++ snd (run ops (fst (step op ns)))).
Proof.
  simpl. destruct (step op ns) as [ns1 e1]. simpl. destruct (run ops ns1). reflexivity.
Qed.

Lemma glitch_run (N : nat) (ns : NarrativeSystem) :
  let ns' := fst (run (repeat OpGlitchDiscovered N) ns) in
  discoveredGlitches (state ns') = (discoveredGlitches (state ns) + N)%nat
  /\ consciousness (state ns') == consciousness (state ns) + inject_Z (Z.of_nat N) * (5 # 100)
  /\ snd (run (repeat OpGlitchDiscovered N) ns)
     = map narrative_glitch_discovered (seq (S (discoveredGlitches (state ns))) N).
Proof.
  revert ns. induction N as [|N IH]; intros ns; cbv zeta.
  - simpl. split; [lia | split; [simpl; ring | reflexivity]].
  - change (repeat OpGlitchDiscovered (S N)) with (OpGlitchDiscovered :: repeat OpGlitchDiscovered N).
    rewrite !run_cons.
    destruct (IH (fst (onGlitchDiscovered ns))) as (Hg & Hc & He).
    change (step OpGlitchDiscovered ns) with (onGlitchDiscovered ns).
    cbn [fst snd]. rewrite Hg, He, Hc. simpl. split; [lia|]. split.
    + rewrite Zpos_P_of_succ_nat, <- Z.add_1_r, inject_Z_plus. ring.
    + reflexivity.
Qed.

(** C6 (code_bug): [onGlitchDiscovered] adds 0.05 without clamping.  N calls
    from the initial system give [discoveredGlitches = N], consciousness
    exactly [0.05 * N] and the events [1, ..., N]; at N = 21 consciousness is
    1.05, not [min(1, 0.05 * 21) = 1]. *)
Theorem glitch_discoveries_unclamped :
  (forall N : nat,
     let ns := fst (run (repeat OpGlitchDiscovered N) init) in
     discoveredGlitches (state ns) = N
     /\ consciousness (state ns) == inject_Z (Z.of_nat N) * (5 # 100)
     /\ snd (run (repeat OpGlitchDiscovered N) init) = map narrative_glitch_discovered (seq 1 N))
  /\ consciousness (state (fst (run (repeat OpGlitchDiscovered 21) init))) == 21 # 20
  /\ ~ consciousness (state (fst (run (repeat OpGlitchDiscovered 21) init))) == 1.
Proof.
  split; [|split].
  - intros N. cbv zeta. destruct (glitch_run N init) as (Hg & Hc & He).
    simpl in Hg, Hc, He. split; [exact Hg|]. split; [rewrite Hc; ring | exact He].
  - vm_compute. reflexivity.
  - vm_compute. discriminate.
Qed.

(** C1 (code_bug): neither [makeChoice] nor [onGlitchDiscovered] clamps,
    and [update] only caps at 1: one [accept_reality] choice from the
    initial system takes consciousness to -0.1, and twenty-one glitch
    discoveries take it to 1.05. *)
Theorem scalars_leave_unit_interval :
  consciousness (state (fst (run [OpMakeChoice "accept_reality"] init))) < 0
  /\ 1 < consciousness (state (fst (run (repeat OpGlitchDiscovered 21) init)))
  /\ consciousness (state (fst (run [OpMakeChoice "accept_reality"; OpUpdate 1] init))) < 0.
Proof. vm_compute. repeat split; reflexivity. Qed.

(** A system in VOID at consciousness = fulfillment = 0.1. *)
Definition void_at_tenth : NarrativeSystem :=
  mkNarrativeSystem (mkPlayerState (1 # 10) (1 # 10) Zone.VOID [] 0 0) [] Zone.VOID setupChoices.

(** C4 (code_bug): [makeChoice] on a catalog id adds the deltas, appends the
    id and emits one [narrative:choice_made] event, but does not clamp.
    From 0.1/0.1, [accept_reality] gives 0/0.3 and history
    [["accept_reality"]] (no clamp needed); from the initial system it
    gives consciousness -0.1, not 0. *)
Theorem makeChoice_accept_reality :
  let r := makeChoice "accept_reality" void_at_tenth in
  consciousness (state (fst r)) == 0
  /\ fulfillment (state (fst r)) == 3 # 10
  /\ choices (state (fst r)) = ["accept_reality"%string]
  /\ snd r = [narrative_choice_made (nth 0 setupChoices no_choice)
                (consequences (nth 0 setupChoices no_choice))]
  /\ consciousness (state (fst (makeChoice "accept_reality" init))) == -1 # 10
  /\ consciousness (state (fst (makeChoice "accept_reality" (fst (makeChoice "accept_reality" init)))))
     == -2 # 10.
Proof. vm_compute. repeat split; reflexivity. Qed.

(** * Further properties of the NarrativeSystem *)

(** The two zone caches of the object: [this.currentZone] (returned by
    [getCurrentZone]) and [this.state.currentZone] (returned by [getState]). *)
Definition zones_agree (ns : NarrativeSystem) : Prop :=
  currentZone (state ns) = sys_currentZone ns.

(** The ids of the [makeChoice] calls of a run, in order. *)
Fixpoint choice_calls (ops : list Op) : list string :=
  match ops with
  | [] => []
  | OpMakeChoice cid :: rest => cid :: choice_calls rest
  | _ :: rest => choice_calls rest
  end.

Definition in_catalog (cid : string) : bool :=
  existsb (fun c => String.eqb (id c) cid) setupChoices.

Fixpoint glitch_calls (ops : list Op) : nat :=
  match ops with
  | [] => 0
  | OpGlitchDiscovered :: rest => S (glitch_calls rest)
  | _ :: rest => glitch_calls rest
  end.

Fixpoint update_deltas (ops : list Op) : list Q :=
  match ops with
  | [] => []
  | OpUpdate dt :: rest => dt :: update_deltas rest
  | _ :: rest => update_deltas rest
  end.

Definition Qsum (l : list Q) : Q := fold_right Qplus 0 l.

Lemma update_keeps_rest dt ns :
  let s := state ns in
  let s' := state (fst (update dt ns)) in
  choices s' = choices s
  /\ discoveredGlitches s' = discoveredGlitches s
  /\ (zones_agree ns -> zones_agree (fst (update dt ns))).
Proof.
  cbv zeta. rewrite update_unfold. cbv zeta.
  match goal with |- context [checkZoneTransition ?n] =>
    pose proof (checkZoneTransition_keeps n) as K;
    assert (A : zones_agree n -> zones_agree (fst (checkZoneTransition n)))
      by (unfold zones_agree, checkZoneTransition; cbv zeta;
          destruct (negb _); simpl; auto);
    set (n0 := n) in * end.
  simpl in K. destruct K as (_ & _ & Kch & Kg & _ & _).
  unfold zones_agree in *.
  destruct (_ || _); simpl; repeat split; try assumption; intros H; apply A; exact H.
Qed.

Lemma find_choice_catalog cid :
  in_catalog cid = true <-> exists ch, find_choice setupChoices cid = Some ch.
Proof.
  unfold in_catalog, find_choice. split.
  - intros H. destruct (find _ _) as [ch|] eqn:E; [eauto|].
    apply existsb_exists in H. destruct H as (c & Hin & Heq).
    exfalso. eapply find_none in E; [|exact Hin]. congruence.
  - intros (ch & E). apply existsb_exists. apply find_some in E. eauto.
Qed.

Lemma step_history op ns :
  availableChoices ns = setupChoices ->
  choices (state (fst (step op ns)))
    = choices (state ns) ++ filter in_catalog (choice_calls [op])
  /\ discoveredGlitches (state (fst (step op ns)))
     = (discoveredGlitches (state ns) + glitch_calls [op])%nat
  /\ timeElapsed (state (fst (step op ns))) == timeElapsed (state ns) + Qsum (update_deltas [op])
  /\ (zones_agree ns -> zones_agree (fst (step op ns))).
Proof.
  intros Hav. destruct op as [dt|cid|]; simpl.
  - destruct (update_keeps dt ns) as (_ & _ & Ht & _).
    destruct (update_keeps_rest dt ns) as (Hc & Hg & Hz).
    rewrite Hc, Hg, Ht, app_nil_r. repeat split; [lia | | exact Hz].
    unfold Qsum; simpl. rewrite Qplus_0_r. reflexivity.
  - unfold makeChoice. rewrite Hav.
    destruct (in_catalog cid) eqn:Ec.
    + apply find_choice_catalog in Ec. destruct Ec as (ch & E). rewrite E. simpl.
      repeat split; [lia | unfold Qsum; simpl; ring | unfold zones_agree; simpl; auto].
    + destruct (find_choice setupChoices cid) eqn:E.
      { exfalso. assert (in_catalog cid = true) by (apply find_choice_catalog; eauto). congruence. }
      simpl. rewrite app_nil_r. repeat split; [lia | unfold Qsum; simpl; ring | auto].
  - rewrite app_nil_r.
    repeat split; [lia | unfold Qsum; simpl; ring | unfold zones_agree; simpl; auto].
Qed.

Lemma choice_calls_app l1 l2 : choice_calls (l1 ++ l2) = choice_calls l1 ++ choice_calls l2.
Proof. induction l1 as [|[] l1 IH]; simpl; rewrite ?IH; reflexivity. Qed.

Lemma run_history ops ns :
  availableChoices ns = setupChoices ->
  choices (state (fst (run ops ns))) = choices (state ns) ++ filter in_catalog (choice_calls ops)
  /\ discoveredGlitches (state (fst (run ops ns))) = (discoveredGlitches (state ns) + glitch_calls ops)%nat
  /\ timeElapsed (state (fst (run ops ns))) == timeElapsed (state ns) + Qsum (update_deltas ops)
  /\ (zones_agree ns -> zones_agree (fst (run ops ns))).
Proof.
  revert ns. induction ops as [|op ops IH]; intros ns Hav.
  - simpl. rewrite app_nil_r. repeat split; [lia | unfold Qsum; simpl; ring | auto].
  - rewrite run_cons.
    destruct (step_history op ns Hav) as (H1 & H2 & H3 & H4).
    assert (Hav1 : availableChoices (fst (step op ns)) = setupChoices)
      by (rewrite step_availableChoices; exact Hav).
    destruct (IH _ Hav1) as (I1 & I2 & I3 & I4). cbn [fst].
    rewrite I1, H1, I2, H2, I3, H3.
    change (op :: ops) with ([op] ++ ops).
    rewrite choice_calls_app, filter_app, app_assoc.
    repeat split.
    + destruct op; simpl; lia.
    + destruct op; unfold Qsum; simpl; ring.
    + intros Z; apply I4, H4, Z.
Qed.

(** X1: in every reachable system the two zone caches agree: the zone
    [getState()] reports is the zone [getCurrentZone()] reports. *)
Theorem reachable_zones_agree (ops : list Op) :
  currentZone (state (fst (run ops init))) = sys_currentZone (fst (run ops init)).
Proof.
  destruct (run_history ops init eq_refl) as (_ & _ & _ & H). apply H. reflexivity.
Qed.

(** X2: from the initial system the choice history is exactly the list of
    [makeChoice] ids of the run that are catalog ids, in call order
    (unknown ids are dropped, repeats kept), and [discoveredGlitches] is the
    number of [onGlitchDiscovered] calls. *)
Theorem reachable_history (ops : list Op) :
  choices (state (fst (run ops init))) = filter in_catalog (choice_calls ops)
  /\ discoveredGlitches (state (fst (run ops init))) = glitch_calls ops.
Proof.
  destruct (run_history ops init eq_refl) as (H1 & H2 & _ & _).
  rewrite H1, H2. split; reflexivity.
Qed.

(** X3: from the initial system, as soon as one choice has been recorded
    the fallback rule is never used: the resolved ending is the implied
    ending of the catalog entry of the last recorded choice. *)
Theorem reachable_ending_from_last_choice (ops : list Op) (cid : string)
  (Hlast : js_last (choices (state (fst (run ops init)))) = Some cid) :
  exists ch, In ch setupChoices /\ id ch = cid
             /\ cq_ending (consequences ch) = Some (determineEnding (fst (run ops init))).
Proof.
  assert (Hin : In cid (choices (state (fst (run ops init))))).
  { clear -Hlast. induction (choices _) as [|x [|y l] IH]; simpl in *;
      [discriminate | injection Hlast; auto | right; apply IH; exact Hlast]. }
  destruct (reachable_history ops) as [Hh _].
  rewrite Hh in Hin. apply filter_In in Hin. destruct Hin as [_ Hc].
  apply find_choice_catalog in Hc. destruct Hc as (ch & E).
  exists ch. pose proof E as E'. unfold find_choice in E'. apply find_some in E'.
  destruct E' as [Hch Heq]. apply String.eqb_eq in Heq.
  split; [exact Hch | split; [exact Heq|]].
  unfold determineEnding. rewrite Hlast, run_availableChoices. simpl availableChoices.
  rewrite E. simpl in Hch.
  destruct Hch as [<-|[<-|[<-|[<-|[]]]]]; reflexivity.
Qed.

(** Witness of X3: one [transcend] choice. *)
Lemma reachable_ending_from_last_choice_witness :
  js_last (choices (state (fst (run [OpMakeChoice "transcend"] init)))) = Some "transcend"%string
  /\ exists ch, In ch setupChoices /\ id ch = "transcend"%string
     /\ cq_ending (consequences ch)
        = Some (determineEnding (fst (run [OpMakeChoice "transcend"] init))).
Proof.
  assert (H : js_last (choices (state (fst (run [OpMakeChoice "transcend"] init))))
              = Some "transcend"%string) by reflexivity.
  split; [exact H | exact (reachable_ending_from_last_choice _ _ H)].
Defined.

Lemma js_min_le_one x : js_min 1 x <= 1.
Proof.
  unfold js_min. destruct (Qle_bool 1 x) eqn:E; [apply Qle_refl|].
  apply Qlt_le_weak, Qnot_le_lt. intros H. apply Qle_bool_iff in H. congruence.
Qed.

Lemma js_min_one_reaches x : Qle_bool 1 (js_min 1 x) = Qle_bool 1 x.
Proof.
  destruct (Qle_bool 1 x) eqn:E.
  - apply Qle_bool_iff in E. rewrite min_one_above by exact E. reflexivity.
  - assert (H : x < 1).
    { apply Qnot_le_lt. intros H. apply Qle_bool_iff in H. congruence. }
    rewrite min_one_below by exact H. exact E.
Qed.

(** X4: whatever the system holds (also values pushed past 1 by choices or
    glitches), one [update] leaves consciousness and fulfillment at most 1,
    and it emits a [narrative:ending] event exactly when consciousness +
    0.001 or fulfillment + 0.0005 reaches 1 (one event then, none
    otherwise). *)
Theorem update_caps_and_ending_condition (dt : Q) (ns : NarrativeSystem) :
  let s := state ns in
  consciousness (state (fst (update dt ns))) <= 1
  /\ fulfillment (state (fst (update dt ns))) <= 1
  /\ count_endings (snd (update dt ns))
     = if Qle_bool 1 (fulfillment s + (5 # 10000)) || Qle_bool 1 (consciousness s + (1 # 1000))
       then 1%nat else 0%nat.
Proof.
  cbv zeta. destruct (update_keeps dt ns) as (Hc & Hf & _ & _).
  rewrite Hc, Hf. split; [apply js_min_le_one | split; [apply js_min_le_one|]].
  rewrite update_unfold. cbv zeta. rewrite !js_min_one_reaches.
  unfold Settings.progressionSpeed_consciousness, Settings.progressionSpeed_fulfillment.
  destruct (_ || _); simpl snd.
  - rewrite count_endings_app, checkZoneTransition_no_ending. reflexivity.
  - apply checkZoneTransition_no_ending.
Qed.

Lemma checkZoneTransition_reflects n :
  (66 # 100 <= fulfillment (state n) ->
   sys_currentZone (fst (checkZoneTransition n)) = Zone.TRANSCENDENCE)
  /\ (33 # 100 <= fulfillment (state n) ->
      sys_currentZone (fst (checkZoneTransition n)) <> Zone.VOID).
Proof.
  unfold checkZoneTransition, Settings.transcendence_fulfillmentThreshold,
    Settings.awakening_fulfillmentThreshold.
  split; intros H; apply Qle_bool_iff in H.
  - rewrite H. destruct (sys_currentZone n) eqn:Ez; simpl; rewrite ?andb_false_r;
      simpl; rewrite ?Ez; reflexivity.
  - rewrite H. destruct (Qle_bool (66 # 100) _); destruct (sys_currentZone n) eqn:Ez;
      simpl; rewrite ?andb_false_r; simpl; rewrite ?Ez; discriminate.
Qed.

(** X5: after any [update] the cached zone is at least what fulfillment
    warrants: fulfillment >= 0.66 means TRANSCENDENCE, fulfillment >= 0.33
    means not VOID.  (A [makeChoice] crossing a threshold is only picked up
    by the next [update].) *)
Theorem update_zone_reflects_fulfillment (dt : Q) (ns : NarrativeSystem) :
  let ns' := fst (update dt ns) in
  (66 # 100 <= fulfillment (state ns') -> sys_currentZone ns' = Zone.TRANSCENDENCE)
  /\ (33 # 100 <= fulfillment (state ns') -> sys_currentZone ns' <> Zone.VOID).
Proof.
  cbv zeta. rewrite update_unfold. cbv zeta.
  match goal with |- context [checkZoneTransition ?n] => set (n0 := n) end.
  assert (Hf : fulfillment (state (fst (checkZoneTransition n0))) = fulfillment (state n0))
    by apply checkZoneTransition_keeps.
  assert (Z : forall x, fst (triggerEnding x) = mkNarrativeSystem (state x)
      (events x ++ [NE_ending (determineEnding x) (state x)]) (sys_currentZone x)
      (availableChoices x)) by reflexivity.
  pose proof (checkZoneTransition_reflects n0) as K.
  destruct (_ || _); [rewrite Z|]; cbn [state sys_currentZone fst]; rewrite Hf; exact K.
Qed.

(** X6: along a run from the initial system whose [update] calls all have
    [deltaTime >= 0], [timeElapsed] is the sum of those deltas, hence
    non-negative, so [getMessage] never returns [undefined]. *)
Theorem reachable_time_and_message (ops : list Op)
  (Hdt : Forall (fun dt => 0 <= dt) (update_deltas ops)) :
  timeElapsed (state (fst (run ops init))) == Qsum (update_deltas ops)
  /\ 0 <= timeElapsed (state (fst (run ops init)))
  /\ getMessage (fst (run ops init)) <> None.
Proof.
  destruct (run_history ops init eq_refl) as (_ & _ & Ht & _).
  simpl timeElapsed in Ht. rewrite Qplus_0_l in Ht.
  assert (Hs : 0 <= Qsum (update_deltas ops)).
  { clear -Hdt. induction Hdt as [|d l Hd _ IH]; unfold Qsum in *; simpl;
      [apply Qle_refl | lra]. }
  assert (H0 : 0 <= timeElapsed (state (fst (run ops init)))) by (rewrite Ht; exact Hs).
  split; [exact Ht | split; [exact H0|]].
  rewrite (getMessage_bands _ H0). unfold spec_message.
  destruct (Qlt_le_dec _ _); [discriminate|].
  destruct (Qlt_le_dec _ _); [discriminate|].
  destruct (Qlt_le_dec _ _); discriminate.
Qed.

(** Witness of X6: two updates and a glitch. *)
Lemma reachable_time_and_message_witness :
  Forall (fun dt => 0 <= dt) (update_deltas [OpUpdate (1 # 60); OpGlitchDiscovered; OpUpdate 5])
  /\ timeElapsed (state (fst (run [OpUpdate (1 # 60); OpGlitchDiscovered; OpUpdate 5] init)))
     == Qsum (update_deltas [OpUpdate (1 # 60); OpGlitchDiscovered; OpUpdate 5])
  /\ 0 <= timeElapsed (state (fst (run [OpUpdate (1 # 60); OpGlitchDiscovered; OpUpdate 5] init)))
  /\ getMessage (fst (run [OpUpdate (1 # 60); OpGlitchDiscovered; OpUpdate 5] init)) <> None.
Proof.
  assert (H : Forall (fun dt => 0 <= dt)
                (update_deltas [OpUpdate (1 # 60); OpGlitchDiscovered; OpUpdate 5])).
  { simpl. repeat constructor; unfold Qle; simpl; lia. }
  split; [exact H | exact (reachable_time_and_message _ H)].
Defined.

(** * Synchronous dispatch of the narrative emissions in the Application

    [EventBus.emit] calls the listeners of a channel synchronously.  Of the
    listeners the application registers on the channels NarrativeSystem
    emits on, only the one of [Application.setupEventListeners] on
    ['narrative:glitch_discovered'] calls back into the NarrativeSystem
    ([onGlitchDiscovered]); the others (UIController's banners and choice
    prompt, the audio cues) leave it untouched.  GlitchSystem.onInteraction
    emits ['narrative:glitch_discovered'] on every hit.  [dispatch] runs the
    pending emissions depth first, as the synchronous calls do, spending one
    unit of [fuel] (stack depth) per emission; [None] means the fuel ran out. *)
Fixpoint dispatch (fuel : nat) (ns : NarrativeSystem) (pending : list Emit)
  : option NarrativeSystem :=
  match fuel with
  | O => None
  | S fuel' =>
      match pending with
      | [] => Some ns
      | narrative_glitch_discovered _ :: rest =>
          let (ns1, es1) := onGlitchDiscovered ns in dispatch fuel' ns1 (es1 ++ rest)
      | _ :: rest => dispatch fuel' ns rest
      end
  end.

(** X7: once the application is wired up, one ['narrative:glitch_discovered']
    emission (as GlitchSystem sends on a hit) never finishes: the listener
    calls [onGlitchDiscovered], which emits the same channel again, so the
    synchronous dispatch exhausts any stack depth. *)
Theorem glitch_discovered_dispatch_diverges (fuel : nat) (ns : NarrativeSystem) (k : nat) :
  dispatch fuel ns [narrative_glitch_discovered k] = None.
Proof.
  revert ns k. induction fuel as [|fuel IH]; intros ns k; [reflexivity|].
  simpl. apply IH.
Qed.

(** * MathUtils and ColorUtils (src/src/utils/helpers.ts) *)

(** [Math.max(a, b)]. *)
Definition js_max (a b : Q) : Q := if Qle_bool a b then b else a.

Module MathUtils.

Definition lerp (start end_ t : Q) : Q := start * (1 - t) + end_ * t.

Definition clamp (value min max : Q) : Q := js_max min (js_min max value).

Definition map (value inMin inMax outMin outMax : Q) : Q :=
  (value - inMin) * (outMax - outMin) / (inMax - inMin) + outMin.

Definition smoothstep (edge0 edge1 x : Q) : Q :=
  let t := clamp ((x - edge0) / (edge1 - edge0)) 0 1 in
  t * t * (3 - 2 * t).

End MathUtils.

(** ECMAScript ToInt32, applied by [>>] and [&] to their operands. *)
Definition ToInt32 (z : Z) : Z :=
  let m := Z.modulo z (2 ^ 32) in
  if (m >=? 2 ^ 31)%Z then (m - 2 ^ 32)%Z else m.

(** [a >> n] (sign-propagating) and [a & b]. *)
Definition js_shr (a n : Z) : Z := Z.shiftr (ToInt32 a) n.
Definition js_and (a b : Z) : Z := Z.land (ToInt32 a) (ToInt32 b).

Record RGB := mkRGB { r : Q; g : Q; b : Q }.

Module ColorUtils.

Definition hexToRgb (hex : Z) : RGB :=
  mkRGB (inject_Z (js_and (js_shr hex 16) 255) / 255)
        (inject_Z (js_and (js_shr hex 8) 255) / 255)
        (inject_Z (js_and hex 255) / 255).

End ColorUtils.

Lemma js_max_ge_l a b : a <= js_max a b.
Proof.
  unfold js_max. destruct (Qle_bool a b) eqn:E; [apply Qle_bool_iff; exact E | apply Qle_refl].
Qed.

Lemma js_le_cases a b : (a <= b /\ Qle_bool a b = true) \/ (b < a /\ Qle_bool a b = false).
Proof.
  destruct (Qle_bool a b) eqn:E.
  - left. split; [apply Qle_bool_iff; exact E | reflexivity].
  - right. split; [|reflexivity]. apply Qnot_le_lt. intros H. apply Qle_bool_iff in H. congruence.
Qed.

(** X8: [MathUtils.clamp(value, min, max)]: for [min <= max] the result
    lies in [min, max] and is [value] itself when [value] already does;
    for [min > max] it is always [min]. *)
Theorem clamp_bounds (value mn mx : Q) :
  (mn <= mx -> mn <= MathUtils.clamp value mn mx <= mx)
  /\ (mn <= value <= mx -> MathUtils.clamp value mn mx == value)
  /\ (mx < mn -> MathUtils.clamp value mn mx = mn).
Proof.
  unfold MathUtils.clamp, js_max, js_min.
  destruct (js_le_cases mx value) as [[H1 E1]|[H1 E1]]; rewrite E1;
  destruct (js_le_cases mn mx) as [[H2 E2]|[H2 E2]]; rewrite ?E2;
  destruct (js_le_cases mn value) as [[H3 E3]|[H3 E3]]; rewrite ?E3;
  repeat split; intros; try lra.
  all: try (exfalso; lra).
  all: try reflexivity.
  all: try lra.
Qed.

Lemma clamp01 v :
  0 <= MathUtils.clamp v 0 1 <= 1
  /\ (v <= 0 -> MathUtils.clamp v 0 1 == 0) /\ (1 <= v -> MathUtils.clamp v 0 1 == 1).
Proof.
  unfold MathUtils.clamp, js_max, js_min.
  destruct (js_le_cases 1 v) as [[H1 E1]|[H1 E1]]; rewrite E1;
  destruct (js_le_cases 0 1) as [[H2 E2]|[H2 E2]]; rewrite ?E2; try (exfalso; lra);
  destruct (js_le_cases 0 v) as [[H3 E3]|[H3 E3]]; rewrite ?E3; repeat split; intros; lra.
Qed.

(** X9: [MathUtils.lerp(start, end, t)] gives [start] at [t = 0] and [end]
    at [t = 1], and for [t] in [0, 1] stays between the two end points. *)
Theorem lerp_endpoints_between (s e t : Q) :
  MathUtils.lerp s e 0 == s /\ MathUtils.lerp s e 1 == e /\
  (0 <= t <= 1 -> (s <= e -> s <= MathUtils.lerp s e t <= e)
                  /\ (e <= s -> e <= MathUtils.lerp s e t <= s)).
Proof.
  unfold MathUtils.lerp. split; [ring|]. split; [ring|]. intros [H0 H1].
  split; intros H; split; nra.
Qed.

(** X10: for [inMin <> inMax], [MathUtils.map] sends [inMin] to [outMin]
    and [inMax] to [outMax], and mapping back with the ranges swapped
    returns the original value when also [outMin <> outMax]. *)
Theorem map_endpoints_roundtrip (v inMin inMax outMin outMax : Q) :
  ~ inMin == inMax ->
  MathUtils.map inMin inMin inMax outMin outMax == outMin
  /\ MathUtils.map inMax inMin inMax outMin outMax == outMax
  /\ (~ outMin == outMax ->
      MathUtils.map (MathUtils.map v inMin inMax outMin outMax) outMin outMax inMin inMax == v).
Proof.
  intros H. assert (~ inMax - inMin == 0) as H0 by (intros E; apply H; lra).
  unfold MathUtils.map. split; [field; exact H0|]. split; [field; exact H0|].
  intros Hc. assert (~ outMax - outMin == 0) by (intros E; apply Hc; lra).
  field. split; assumption.
Qed.

(** X11: for [edge0 < edge1], [MathUtils.smoothstep(edge0, edge1, x)] lies in
    [0, 1], is 0 for [x <= edge0] and 1 for [x >= edge1]. *)
Theorem smoothstep_range (e0 e1 x : Q) :
  e0 < e1 ->
  0 <= MathUtils.smoothstep e0 e1 x <= 1
  /\ (x <= e0 -> MathUtils.smoothstep e0 e1 x == 0)
  /\ (e1 <= x -> MathUtils.smoothstep e0 e1 x == 1).
Proof.
  intros H. unfold MathUtils.smoothstep.
  destruct (clamp01 ((x - e0) / (e1 - e0))) as [[T0 T1] [L U]].
  set (t := MathUtils.clamp _ 0 1) in *.
  split; [|split].
  - assert (0 <= t * t) as Q1 by (apply Qmult_le_0_compat; lra).
    assert (0 <= (1 - t) * (1 - t)) as Q2 by (apply Qmult_le_0_compat; lra).
    split.
    + apply Qmult_le_0_compat; lra.
    + assert (0 <= (1 - t) * (1 - t) * (1 + 2 * t)) as Q3 by (apply Qmult_le_0_compat; lra).
      assert (1 - t * t * (3 - 2 * t) == (1 - t) * (1 - t) * (1 + 2 * t)) as Q4 by ring.
      lra.
  - intros Hx. rewrite L; [ring|]. apply Qle_shift_div_r; lra.
  - intros Hx. rewrite U; [ring|]. apply Qle_shift_div_l; lra.
Qed.

Lemma smoothstep_range_witness :
  0 < 1 /\ 0 <= MathUtils.smoothstep 0 1 (1 # 2) <= 1.
Proof.
  split; [reflexivity|]. exact (proj1 (smoothstep_range 0 1 (1 # 2) ltac:(reflexivity))).
Defined.

Lemma map_endpoints_roundtrip_witness :
  ~ 0 == 10 /\ MathUtils.map 0 0 10 0 100 == 0.
Proof.
  split; [discriminate|]. exact (proj1 (map_endpoints_roundtrip 5 0 10 0 100 ltac:(discriminate))).
Defined.

Lemma ToInt32_spec x :
  exists k, ToInt32 x = (x - k * 2 ^ 32)%Z /\ (- 2 ^ 31 <= ToInt32 x < 2 ^ 31)%Z.
Proof.
  unfold ToInt32. pose proof (Z.div_mod x (2 ^ 32) ltac:(lia)).
  pose proof (Z.mod_pos_bound x (2 ^ 32) ltac:(lia)).
  destruct (Z.geb_spec (x mod 2 ^ 32) (2 ^ 31)).
  - exists (x / 2 ^ 32 + 1)%Z. lia.
  - exists (x / 2 ^ 32)%Z. lia.
Qed.

Lemma ToInt32_small x : (- 2 ^ 31 <= x < 2 ^ 31)%Z -> ToInt32 x = x.
Proof.
  intros H. unfold ToInt32.
  pose proof (Z.div_mod x (2 ^ 32) ltac:(lia)).
  pose proof (Z.mod_pos_bound x (2 ^ 32) ltac:(lia)).
  destruct (Z.geb_spec (x mod 2 ^ 32) (2 ^ 31)); lia.
Qed.

Lemma land_255 y : Z.land y 255 = (y mod 256)%Z.
Proof. change 255%Z with (Z.ones 8). rewrite Z.land_ones by lia. reflexivity. Qed.

Lemma channel x n : (0 <= n <= 24)%Z -> js_and (js_shr x n) 255 = ((x / 2 ^ n) mod 256)%Z.
Proof.
  intros Hn. unfold js_and, js_shr.
  destruct (ToInt32_spec x) as (k & Ek & Hr).
  rewrite Z.shiftr_div_pow2 by lia.
  assert (0 < 2 ^ n)%Z by (apply Z.pow_pos_nonneg; lia).
  assert (2 ^ n * 2 ^ (32 - n) = 2 ^ 32)%Z as Hp
    by (rewrite <- Z.pow_add_r by lia; f_equal; lia).
  rewrite ToInt32_small.
  2:{ split. apply Z.div_le_lower_bound; nia. apply Z.div_lt_upper_bound; nia. }
  change (ToInt32 255) with 255%Z. rewrite land_255, Ek.
  replace (x - k * 2 ^ 32)%Z with (x + (- k * 2 ^ (32 - n)) * 2 ^ n)%Z
    by (rewrite <- Hp; ring).
  rewrite Z.div_add by lia.
  assert (2 ^ (32 - n) = 2 ^ (24 - n) * 256)%Z as Hq.
  { change 256%Z with (2 ^ 8)%Z. rewrite <- Z.pow_add_r by lia. f_equal; lia. }
  rewrite Hq.
  replace (x / 2 ^ n + - k * (2 ^ (24 - n) * 256))%Z
    with (x / 2 ^ n + (- k * 2 ^ (24 - n)) * 256)%Z by ring.
  rewrite Z.mod_add by lia. reflexivity.
Qed.

Lemma channel0 x : js_and x 255 = (x mod 256)%Z.
Proof.
  unfold js_and. destruct (ToInt32_spec x) as (k & Ek & _). change (ToInt32 255) with 255%Z.
  rewrite land_255, Ek.
  replace (x - k * 2 ^ 32)%Z with (x + (- k * 2 ^ 24) * 256)%Z by ring.
  apply Z.mod_add; lia.
Qed.

Lemma byte_unit (a : Z) : (0 <= a < 256)%Z -> 0 <= inject_Z a / 255 <= 1.
Proof.
  intros H. assert (0 <= inject_Z a <= 255).
  { split; [change 0 with (inject_Z 0) | change 255 with (inject_Z 255)];
    rewrite <- Zle_Qle; lia. }
  split.
  - apply Qle_shift_div_l; [reflexivity | lra].
  - apply Qle_shift_div_r; [reflexivity | lra].
Qed.

Lemma byte_period (x k n : Z) : (0 <= n <= 16)%Z ->
  (((x + k * 2 ^ 24) / 2 ^ n) mod 256 = (x / 2 ^ n) mod 256)%Z.
Proof.
  intros Hn. assert (0 < 2 ^ n)%Z by (apply Z.pow_pos_nonneg; lia).
  replace (k * 2 ^ 24)%Z with ((k * 2 ^ (16 - n) * 256) * 2 ^ n)%Z.
  2:{ change 256%Z with (2 ^ 8)%Z. rewrite <- !Z.mul_assoc, <- !Z.pow_add_r by lia.
      f_equal; f_equal; lia. }
  rewrite Z.div_add by lia. apply Z.mod_add; lia.
Qed.

(** X12: [ColorUtils.hexToRgb]: every channel lies in [0, 1] for any
    integer [hex]; only the low 24 bits of [hex] matter; and for a colour
    [0 <= hex < 2^24] the three channels, scaled back by 255, rebuild [hex]. *)
Theorem hexToRgb_channels (hex : Z) :
  (0 <= r (ColorUtils.hexToRgb hex) <= 1 /\ 0 <= g (ColorUtils.hexToRgb hex) <= 1
   /\ 0 <= b (ColorUtils.hexToRgb hex) <= 1)
  /\ (forall k, ColorUtils.hexToRgb (hex + k * 2 ^ 24) = ColorUtils.hexToRgb hex)
  /\ ((0 <= hex < 2 ^ 24)%Z ->
      255 * (r (ColorUtils.hexToRgb hex) * 65536 + g (ColorUtils.hexToRgb hex) * 256
             + b (ColorUtils.hexToRgb hex)) == inject_Z hex).
Proof.
  unfold ColorUtils.hexToRgb; cbn [r g b].
  rewrite (channel hex 16), (channel hex 8), channel0 by lia.
  split; [|split].
  - repeat split; apply byte_unit; apply Z.mod_pos_bound; lia.
  - intros k. rewrite (channel _ 16), (channel _ 8), channel0 by lia.
    rewrite !byte_period by lia.
    replace (k * 2 ^ 24)%Z with (k * 65536 * 256)%Z by ring.
    rewrite Z.mod_add by lia. reflexivity.
  - intros H.
    assert ((hex / 2 ^ 16) mod 256 * 65536 + (hex / 2 ^ 8) mod 256 * 256 + hex mod 256 = hex)%Z
      as E.
    { change (2 ^ 16)%Z with 65536%Z. change (2 ^ 8)%Z with 256%Z.
      rewrite (Z.mod_small (hex / 65536) 256)
        by (split; [apply Z.div_pos | apply Z.div_lt_upper_bound]; lia).
      pose proof (Z.div_mod hex 256 ltac:(lia)) as D1.
      pose proof (Z.div_mod (hex / 256) 256 ltac:(lia)) as D2.
      rewrite Z.div_div in D2 by lia. change (256 * 256)%Z with 65536%Z in D2. lia. }
    rewrite <- E at 4. rewrite !inject_Z_plus, !inject_Z_mult. field.
Qed.

(** * Per-frame smoothing (OrbSystem.update, InteractionController.update) *)

Lemma Qpower_S (q : Q) (n : nat) : q ^ Z.of_nat (S n) == q * q ^ Z.of_nat n.
Proof.
  rewrite Nat2Z.inj_succ. unfold Z.succ.
  rewrite Qpower_plus' by lia. simpl. ring.
Qed.

(** The colour level of every orb in [OrbSystem.update]:
    [orb.fulfillment = MathUtils.lerp(orb.fulfillment, globalFulfillment, 0.01)]. *)
Definition OrbSystem_update_fulfillment (globalFulfillment : Q) (orbs : list Q) : list Q :=
  List.map (fun f => MathUtils.lerp f globalFulfillment (1 # 100)) orbs.

Fixpoint orb_frames (n : nat) (globalFulfillment : Q) (orbs : list Q) : list Q :=
  match n with
  | O => orbs
  | S n' => orb_frames n' globalFulfillment (OrbSystem_update_fulfillment globalFulfillment orbs)
  end.

(** [Settings.controls.smoothing] (src/unnamed/part_002). *)
Definition controls_smoothing : Q := 5 # 100.

Record Vector2 := mkVector2 { v2x : Q; v2y : Q }.

Record InteractionRotation := mkInteractionRotation {
  targetRotation : Vector2;
  currentRotation : Vector2
}.

(** [InteractionController.update]: the rotation state after the frame. *)
Definition InteractionController_update (st : InteractionRotation) : InteractionRotation :=
  let t := targetRotation st in
  let c := currentRotation st in
  mkInteractionRotation t
    (mkVector2 (v2x c + (v2x t - v2x c) * controls_smoothing)
               (v2y c + (v2y t - v2y c) * controls_smoothing)).

Fixpoint rotation_frames (n : nat) (st : InteractionRotation) : InteractionRotation :=
  match n with
  | O => st
  | S n' => rotation_frames n' (InteractionController_update st)
  end.

(** X13: with [globalFulfillment] held at [g], after [n] frames of
    [OrbSystem.update] the distance of every orb's level to [g] is
    [0.99^n] times the initial one, and levels in [0, 1] stay in [0, 1]
    when [g] is in [0, 1]. *)
Theorem orb_fulfillment_converges (n : nat) (g : Q) (orbs : list Q) :
  Forall2 (fun f0 f1 => f1 - g == (99 # 100) ^ Z.of_nat n * (f0 - g)
                        /\ (0 <= f0 <= 1 -> 0 <= g <= 1 -> 0 <= f1 <= 1))
          orbs (orb_frames n g orbs).
Proof.
  revert orbs. induction n as [|n IH]; intros orbs; cbn [orb_frames].
  - induction orbs as [|f orbs IHo]; constructor; auto.
    split; [simpl; ring | intros; assumption].
  - specialize (IH (OrbSystem_update_fulfillment g orbs)).
    unfold OrbSystem_update_fulfillment in *.
    revert IH. generalize (orb_frames n g (List.map (fun f => MathUtils.lerp f g (1 # 100)) orbs)).
    induction orbs as [|f orbs IHo]; intros l IH;
      inversion IH as [|f0 f1 l0 l1 Hh Ht]; subst; constructor.
    + destruct Hh as [E B]. unfold MathUtils.lerp in *. split.
      * rewrite E, Qpower_S. ring.
      * intros Hf Hg. apply B; nra.
    + apply IHo. assumption.
Qed.

(** X14: with the target held, after [n] frames of
    [InteractionController.update] the distance of the current rotation to
    the target is [0.95^n] times the initial one on both axes, and the
    target itself never moves. *)
Theorem rotation_smoothing_converges (n : nat) (st : InteractionRotation) :
  targetRotation (rotation_frames n st) = targetRotation st
  /\ v2x (targetRotation st) - v2x (currentRotation (rotation_frames n st))
     == (95 # 100) ^ Z.of_nat n * (v2x (targetRotation st) - v2x (currentRotation st))
  /\ v2y (targetRotation st) - v2y (currentRotation (rotation_frames n st))
     == (95 # 100) ^ Z.of_nat n * (v2y (targetRotation st) - v2y (currentRotation st)).
Proof.
  revert st. induction n as [|n IH]; intros st; cbn [rotation_frames].
  - repeat split; simpl; ring.
  - destruct (IH (InteractionController_update st)) as (T & X & Y).
    assert (targetRotation (InteractionController_update st) = targetRotation st) as T1
      by reflexivity.
    assert (v2x (currentRotation (InteractionController_update st))
            = v2x (currentRotation st)
              + (v2x (targetRotation st) - v2x (currentRotation st)) * controls_smoothing)
      as X1 by reflexivity.
    assert (v2y (currentRotation (InteractionController_update st))
            = v2y (currentRotation st)
              + (v2y (targetRotation st) - v2y (currentRotation st)) * controls_smoothing)
      as Y1 by reflexivity.
    rewrite T1 in T, X, Y. rewrite X1 in X. rewrite Y1 in Y.
    split; [exact T|]. unfold controls_smoothing in *.
    rewrite !Qpower_S. split; [rewrite X | rewrite Y]; ring.
Qed.

(** * ParticleSystem.update (src/src/systems/InteractionController.ts) *)

Module Vector3.
Record t := mk { x : Q; y : Q; z : Q }.
Definition add (a b : t) : t := mk (x a + x b) (y a + y b) (z a + z b).
End Vector3.

Record ParticleData := mkParticleData {
  position : Vector3.t;
  velocity : Vector3.t;
  life : Q;
  maxLife : Q
}.

(** One particle of the loop: [position.add(velocity)], then the four wrap
    tests in the order of the source. *)
Definition particle_update (p : ParticleData) : ParticleData :=
  let pos := Vector3.add (position p) (velocity p) in
  let x1 := if js_lt 25 (Qabs (Vector3.x pos)) then Vector3.x pos * -1 else Vector3.x pos in
  let y1 := if js_lt 20 (Vector3.y pos) then 0 else Vector3.y pos in
  let y2 := if js_lt y1 0 then 20 else y1 in
  let z1 := if js_lt 25 (Qabs (Vector3.z pos)) then Vector3.z pos * -1 else Vector3.z pos in
  mkParticleData (Vector3.mk x1 y2 z1) (velocity p) (life p) (maxLife p).

Definition ParticleSystem_update (activeParticles : list ParticleData) : list ParticleData :=
  List.map particle_update activeParticles.

Lemma wrap_axis (v : Q) :
  Qabs (if js_lt 25 (Qabs v) then v * -1 else v) == Qabs v
  /\ (Qabs v <= 25 -> (if js_lt 25 (Qabs v) then v * -1 else v) = v).
Proof.
  destruct (js_lt 25 (Qabs v)) eqn:E; split.
  - rewrite Qabs_Qmult. change (Qabs (-1)) with 1. ring.
  - intros H. apply js_lt_true in E. lra.
  - reflexivity.
  - reflexivity.
Qed.

(** X15: after [ParticleSystem.update] every particle's height lies in
    [0, 20], whatever its position and velocity were; the horizontal wrap
    only flips the sign, so [|x|] and [|z|] are those of [position +
    velocity], which is kept as is when inside [-25, 25]: a particle that
    has left that band is never brought back into it. *)
Theorem particle_update_wrap (ps : list ParticleData) :
  Forall2 (fun p p' =>
             let moved := Vector3.add (position p) (velocity p) in
             0 <= Vector3.y (position p') <= 20
             /\ Qabs (Vector3.x (position p')) == Qabs (Vector3.x moved)
             /\ Qabs (Vector3.z (position p')) == Qabs (Vector3.z moved)
             /\ (Qabs (Vector3.x moved) <= 25 -> Vector3.x (position p') = Vector3.x moved)
             /\ (Qabs (Vector3.z moved) <= 25 -> Vector3.z (position p') = Vector3.z moved)
             /\ velocity p' = velocity p)
          ps (ParticleSystem_update ps).
Proof.
  induction ps as [|p ps IH]; constructor; [|exact IH].
  unfold particle_update. cbn [position velocity Vector3.x Vector3.y Vector3.z].
  set (m := Vector3.add (position p) (velocity p)).
  destruct (wrap_axis (Vector3.x m)) as [X1 X2].
  destruct (wrap_axis (Vector3.z m)) as [Z1 Z2].
  split; [|split; [exact X1|split; [exact Z1|split; [exact X2|split; [exact Z2|reflexivity]]]]].
  destruct (js_lt 20 (Vector3.y m)) eqn:E1; cbv beta iota.
  - replace (js_lt 0 0) with false by (symmetry; apply js_lt_false; lra). lra.
  - apply js_lt_false in E1.
    destruct (js_lt (Vector3.y m) 0) eqn:E2.
    + lra.
    + apply js_lt_false in E2. lra.
Qed.

(** * JavaScript [Map] with string keys, as an association list in insertion
    order (a key occurs at most once: [map_set] replaces in place). *)

Fixpoint map_get {V} (k : string) (m : list (string * V)) : option V :=
  match m with
  | [] => None
  | (k', v) :: m' => if String.eqb k k' then Some v else map_get k m'
  end.

Fixpoint map_set {V} (k : string) (v : V) (m : list (string * V)) : list (string * V) :=
  match m with
  | [] => [(k, v)]
  | (k', v') :: m' => if String.eqb k k' then (k', v) :: m' else (k', v') :: map_set k v m'
  end.

(** [delete m[k]]: the key occurs at most once, so dropping every entry
    with key [k] drops that one. *)
Definition map_delete {V} (k : string) (m : list (string * V)) : list (string * V) :=
  filter (fun kv => negb (String.eqb k (fst kv))) m.

(** * GlitchSystem (src/src/systems/GlitchSystem.ts)

    The [glitches] map; the parallel map of meshes and their uniforms only
    mirror it and are left out. *)

Record GlitchEffect := mkGlitchEffect {
  active : bool;
  center : Vector2;
  intensity : Q;
  duration : Q;
  elapsed : Q
}.

(** [createGlitch]: the entry stored under the fresh id
    [glitch_<Date.now()>_<Math.random()>]. *)
Definition createGlitch (id : string) (c : Vector2) (glitches : list (string * GlitchEffect))
  : list (string * GlitchEffect) :=
  map_set id (mkGlitchEffect true c 1 2 0) glitches.

(** [update]: the [forEach] over the map, where an entry whose progress
    reached 1 is deleted ([removeGlitch]) while the loop runs on. *)
Fixpoint GlitchSystem_update (deltaTime : Q) (glitches : list (string * GlitchEffect))
  : list (string * GlitchEffect) :=
  match glitches with
  | [] => []
  | (id, gl) :: rest =>
      if negb (active gl) then (id, gl) :: GlitchSystem_update deltaTime rest
      else
        let e := elapsed gl + deltaTime in
        let progress := e / duration gl in
        let gl' := mkGlitchEffect (active gl) (center gl) (js_max 0 (1 - progress))
                     (duration gl) e in
        if Qle_bool 1 progress then GlitchSystem_update deltaTime rest
        else (id, gl') :: GlitchSystem_update deltaTime rest
  end.

Fixpoint glitch_frames (dts : list Q) (glitches : list (string * GlitchEffect))
  : list (string * GlitchEffect) :=
  match dts with
  | [] => glitches
  | dt :: dts' => glitch_frames dts' (GlitchSystem_update dt glitches)
  end.

Lemma map_get_app {V} k (a b : list (string * V)) :
  map_get k a = None -> map_get k (a ++ b) = map_get k b.
Proof.
  induction a as [|[k' v] a IH]; simpl; [reflexivity|].
  destruct (String.eqb k k'); [discriminate | exact IH].
Qed.

Lemma map_set_fresh {V} k (v : V) m : map_get k m = None -> map_set k v m = m ++ [(k, v)].
Proof.
  induction m as [|[k' v'] m IH]; simpl; [reflexivity|].
  destruct (String.eqb k k'); [discriminate|]. intros H. rewrite IH by exact H. reflexivity.
Qed.

Lemma GlitchSystem_update_app dt a b :
  GlitchSystem_update dt (a ++ b) = GlitchSystem_update dt a ++ GlitchSystem_update dt b.
Proof.
  induction a as [|[id gl] a IH]; simpl; [reflexivity|].
  destruct (negb (active gl)); [|destruct (Qle_bool _ _)]; rewrite ?IH; reflexivity.
Qed.

Lemma GlitchSystem_update_absent dt k gs :
  map_get k gs = None -> map_get k (GlitchSystem_update dt gs) = None.
Proof.
  induction gs as [|[id gl] gs IH]; simpl; [reflexivity|].
  destruct (String.eqb k id) eqn:E; [discriminate|]. intros H.
  destruct (negb (active gl)); [|destruct (Qle_bool _ _)]; simpl; rewrite ?E; auto.
Qed.

Lemma glitch_frames_absent dts k gs :
  map_get k gs = None -> map_get k (glitch_frames dts gs) = None.
Proof.
  revert gs. induction dts as [|dt dts IH]; intros gs H; simpl; [exact H|].
  apply IH, GlitchSystem_update_absent, H.
Qed.

Lemma Qsum_nonneg dts : Forall (fun dt => 0 <= dt) dts -> 0 <= Qsum dts.
Proof. induction 1; simpl; lra. Qed.

Lemma glitch_frames_entry dts gs1 id gl :
  map_get id gs1 = None -> active gl = true -> duration gl = 2 ->
  0 <= elapsed gl < 2 -> intensity gl == 1 - elapsed gl / 2 ->
  Forall (fun dt => 0 <= dt) dts ->
  match map_get id (glitch_frames dts (gs1 ++ [(id, gl)])) with
  | Some gl' => elapsed gl + Qsum dts < 2 /\ active gl' = true
                /\ elapsed gl' == elapsed gl + Qsum dts
                /\ intensity gl' == 1 - (elapsed gl + Qsum dts) / 2
  | None => 2 <= elapsed gl + Qsum dts
  end.
Proof.
  revert gs1 gl. induction dts as [|dt dts IH]; intros gs1 gl Hg Ha Hd He Hi Hdt; simpl.
  - rewrite map_get_app by exact Hg. simpl. rewrite String.eqb_refl.
    repeat split; try lra; try assumption. rewrite Hi. field.
  - inversion Hdt as [|? ? Hdt0 Hdts]; subst.
    pose proof (Qsum_nonneg dts Hdts) as Hs.
    rewrite GlitchSystem_update_app. simpl. rewrite Ha, Hd. simpl.
    assert ((elapsed gl + dt) / 2 == (elapsed gl + dt) * (1 # 2)) as D2 by field.
    destruct (js_le_cases 1 ((elapsed gl + dt) / 2)) as [[L EL]|[L EL]]; rewrite EL;
      rewrite D2 in L.
    + rewrite app_nil_r, glitch_frames_absent by (apply GlitchSystem_update_absent; exact Hg).
      fold (Qsum dts). lra.
    + set (gl' := mkGlitchEffect (active gl) (center gl) (js_max 0 (1 - (elapsed gl + dt) / 2))
                    2 (elapsed gl + dt)).
      assert (intensity gl' == 1 - elapsed gl' / 2) as Hi'.
      { unfold gl'. cbn [intensity elapsed]. unfold js_max.
        destruct (js_le_cases 0 (1 - (elapsed gl + dt) / 2)) as [[A EA]|[A EA]]; rewrite EA.
        - reflexivity.
        - exfalso. rewrite D2 in A. lra. }
      pose proof (IH (GlitchSystem_update dt gs1) gl' (GlitchSystem_update_absent dt id gs1 Hg)
                    Ha eq_refl ltac:(unfold gl'; cbn [elapsed]; lra) Hi' Hdts) as K.
      unfold gl' in K. cbn [elapsed] in K. rewrite Ha in K. fold (Qsum dts).
      match goal with |- match ?t with _ => _ end => destruct t end; [|lra].
      destruct K as (K1 & K2 & K3 & K4).
      repeat split; [lra | assumption | lra | rewrite K4; field].
Qed.

(** X16: a glitch created under a fresh id fades out and goes away: after
    frames with non-negative [deltaTime]s summing to [s], the entry is
    still in the map exactly when [s < 2] (the duration), with [elapsed = s]
    and [intensity = 1 - s/2]; the other glitches of the map do not matter. *)
Theorem glitch_fades_out (glitches : list (string * GlitchEffect)) (id : string) (c : Vector2)
  (dts : list Q)
  (Hfresh : map_get id glitches = None) (Hdt : Forall (fun dt => 0 <= dt) dts) :
  match map_get id (glitch_frames dts (createGlitch id c glitches)) with
  | Some gl => Qsum dts < 2 /\ active gl = true /\ elapsed gl == Qsum dts
               /\ intensity gl == 1 - Qsum dts / 2
  | None => 2 <= Qsum dts
  end.
Proof.
  unfold createGlitch. rewrite map_set_fresh by exact Hfresh.
  pose proof (glitch_frames_entry dts glitches id (mkGlitchEffect true c 1 2 0) Hfresh
                eq_refl eq_refl ltac:(cbn; lra) ltac:(cbn; reflexivity) Hdt) as K.
  cbn [elapsed] in K.
  match goal with |- match ?t with _ => _ end => destruct t end; [|lra].
  destruct K as (K1 & K2 & K3 & K4). repeat split; [lra | assumption | lra | rewrite K4; field].
Qed.

Lemma glitch_fades_out_witness :
  map_get "glitch_1" (@nil (string * GlitchEffect)) = None
  /\ Forall (fun dt => 0 <= dt) [1 # 2; 1]
  /\ match map_get "glitch_1"
             (glitch_frames [1 # 2; 1] (createGlitch "glitch_1" (mkVector2 0 0) [])) with
     | Some gl => Qsum [1 # 2; 1] < 2 /\ active gl = true /\ elapsed gl == Qsum [1 # 2; 1]
                  /\ intensity gl == 1 - Qsum [1 # 2; 1] / 2
     | None => 2 <= Qsum [1 # 2; 1]
     end.
Proof.
  assert (map_get "glitch_1" (@nil (string * GlitchEffect)) = None) as H1 by reflexivity.
  assert (Forall (fun dt => 0 <= dt) [1 # 2; 1]) as H2
    by (repeat constructor; discriminate).
  split; [exact H1|]. split; [exact H2|].
  exact (glitch_fades_out [] "glitch_1" (mkVector2 0 0) [1 # 2; 1] H1 H2).
Defined.

(** * EventBus (src/src/utils/helpers.ts)

    The static [listeners] map from channel names to [Set]s of callbacks.  A
    callback is known by its object identity, here a number; a [Set] keeps
    its members in insertion order and holds each at most once.  The
    callbacks are taken not to touch the bus while [emit] runs. *)

Definition Listeners := list (string * list nat).

Definition set_add (s : list nat) (cb : nat) : list nat :=
  if existsb (Nat.eqb cb) s then s else s ++ [cb].

Definition set_delete (s : list nat) (cb : nat) : list nat :=
  filter (fun c => negb (Nat.eqb cb c)) s.

Definition map_has {V} (k : string) (m : list (string * V)) : bool :=
  match map_get k m with Some _ => true | None => false end.

Module EventBus.

Definition on (event : string) (callback : nat) (listeners : Listeners) : Listeners :=
  let listeners1 := if map_has event listeners then listeners else map_set event [] listeners in
  match map_get event listeners1 with
  | Some s => map_set event (set_add s callback) listeners1
  | None => listeners1
  end.

Definition off (event : string) (callback : nat) (listeners : Listeners) : Listeners :=
  if negb (map_has event listeners) then listeners
  else match map_get event listeners with
       | Some s => map_set event (set_delete s callback) listeners
       | None => listeners
       end.

(** The callbacks [emit] calls, in the order it calls them. *)
Definition emit (event : string) (listeners : Listeners) : list nat :=
  if negb (map_has event listeners) then []
  else match map_get event listeners with Some s => s | None => [] end.

Definition clear (listeners : Listeners) : Listeners := [].

Definition getListenerCount (event : string) (listeners : Listeners) : nat :=
  match map_get event listeners with Some s => length s | None => 0 end.

End EventBus.

Inductive BusOp := BusOn (event : string) (cb : nat) | BusOff (event : string) (cb : nat)
                 | BusClear.

Definition bus_step (l : Listeners) (op : BusOp) : Listeners :=
  match op with
  | BusOn e c => EventBus.on e c l
  | BusOff e c => EventBus.off e c l
  | BusClear => EventBus.clear l
  end.

Definition bus_run (ops : list BusOp) (l : Listeners) : Listeners := fold_left bus_step ops l.

(** Whether the last [on], [off] or [clear] that concerns [callback] on
    [event] was an [on]; [acc] is the answer before [ops]. *)
Fixpoint subscribed (event : string) (callback : nat) (ops : list BusOp) (acc : bool) : bool :=
  match ops with
  | [] => acc
  | BusOn e c :: ops' =>
      subscribed event callback ops'
        (if String.eqb e event && Nat.eqb c callback then true else acc)
  | BusOff e c :: ops' =>
      subscribed event callback ops'
        (if String.eqb e event && Nat.eqb c callback then false else acc)
  | BusClear :: ops' => subscribed event callback ops' false
  end.

Lemma map_get_set {V} k' k (v : V) m :
  map_get k' (map_set k v m) = if String.eqb k' k then Some v else map_get k' m.
Proof.
  induction m as [|[k0 v0] m IH]; simpl.
  - destruct (String.eqb k' k); reflexivity.
  - destruct (String.eqb k k0) eqn:E; simpl.
    + apply String.eqb_eq in E; subst k0. destruct (String.eqb k' k); reflexivity.
    + rewrite IH. destruct (String.eqb k' k0) eqn:E'; [|reflexivity].
      apply String.eqb_eq in E'; subst k0.
      rewrite String.eqb_sym, E. reflexivity.
Qed.

Lemma emit_get e l : EventBus.emit e l = match map_get e l with Some s => s | None => [] end.
Proof. unfold EventBus.emit, map_has. destruct (map_get e l); reflexivity. Qed.

Lemma emit_on e' e c l :
  EventBus.emit e' (EventBus.on e c l)
  = if String.eqb e' e then set_add (EventBus.emit e l) c else EventBus.emit e' l.
Proof.
  rewrite !emit_get. unfold EventBus.on, map_has.
  destruct (map_get e l) as [s|] eqn:E.
  - rewrite E, map_get_set. destruct (String.eqb e' e); reflexivity.
  - rewrite map_get_set, String.eqb_refl, map_get_set, map_get_set.
    destruct (String.eqb e' e); reflexivity.
Qed.

Lemma emit_off e' e c l :
  EventBus.emit e' (EventBus.off e c l)
  = if String.eqb e' e then set_delete (EventBus.emit e l) c else EventBus.emit e' l.
Proof.
  rewrite !emit_get. unfold EventBus.off, map_has.
  destruct (map_get e l) as [s|] eqn:E; simpl.
  - rewrite map_get_set. destruct (String.eqb e' e); reflexivity.
  - destruct (String.eqb e' e) eqn:Ee; [|reflexivity].
    apply String.eqb_eq in Ee; subst e'. rewrite E. reflexivity.
Qed.

Lemma count_emit e l : EventBus.getListenerCount e l = length (EventBus.emit e l).
Proof. rewrite emit_get. unfold EventBus.getListenerCount. destruct (map_get e l); reflexivity. Qed.

Lemma set_add_mem s c c' :
  existsb (Nat.eqb c') (set_add s c) = (Nat.eqb c c' || existsb (Nat.eqb c') s).
Proof.
  unfold set_add. destruct (existsb (Nat.eqb c) s) eqn:E.
  - destruct (Nat.eqb c c') eqn:Ec; simpl; [|reflexivity].
    apply Nat.eqb_eq in Ec; subst c'. exact E.
  - rewrite existsb_app. simpl. rewrite orb_false_r, Nat.eqb_sym, orb_comm. reflexivity.
Qed.

Lemma set_delete_mem s c c' :
  existsb (Nat.eqb c') (set_delete s c) = (negb (Nat.eqb c c') && existsb (Nat.eqb c') s).
Proof.
  unfold set_delete. induction s as [|x s IH]; simpl; [rewrite andb_false_r; reflexivity|].
  destruct (Nat.eqb c x) eqn:Ex; simpl.
  - rewrite IH. apply Nat.eqb_eq in Ex; subst x.
    destruct (Nat.eqb c c') eqn:E'; simpl; [reflexivity|].
    rewrite Nat.eqb_sym, E'. reflexivity.
  - rewrite IH. destruct (Nat.eqb c' x) eqn:Ex'; simpl; [|reflexivity].
    apply Nat.eqb_eq in Ex'; subst x. rewrite Ex. reflexivity.
Qed.

Lemma set_add_nodup s c : NoDup s -> NoDup (set_add s c).
Proof.
  unfold set_add. destruct (existsb (Nat.eqb c) s) eqn:E; intros H; [exact H|].
  apply NoDup_app; [exact H | constructor; [intros []| constructor] |].
  intros x Hx [->|[]]. assert (existsb (Nat.eqb x) s = true) as C
    by (apply existsb_exists; exists x; split; [exact Hx | apply Nat.eqb_refl]).
  congruence.
Qed.

Lemma set_delete_nodup s c : NoDup s -> NoDup (set_delete s c).
Proof. intros H. apply NoDup_filter, H. Qed.

(** X17: what [emit] calls is exactly the set of subscriptions: after any
    sequence of [on], [off] and [clear] from an empty bus, a callback is
    called by [emit(event)] iff the last of those calls concerning it on
    [event] was an [on]; it is called once (no duplicates, [on] twice
    registers once), and [getListenerCount] is the number of callbacks
    called. *)
Theorem eventbus_subscriptions (ops : list BusOp) (event : string) (callback : nat) :
  existsb (Nat.eqb callback) (EventBus.emit event (bus_run ops []))
  = subscribed event callback ops false
  /\ NoDup (EventBus.emit event (bus_run ops []))
  /\ EventBus.getListenerCount event (bus_run ops [])
     = length (EventBus.emit event (bus_run ops [])).
Proof.
  split; [|split; [|apply count_emit]].
  - change false with (existsb (Nat.eqb callback) (EventBus.emit event [])).
    unfold bus_run. generalize (@nil (string * list nat)) as l.
    induction ops as [|op ops IH]; intros l; simpl; [reflexivity|].
    rewrite IH. f_equal.
    destruct op as [e c|e c|]; simpl.
    + rewrite emit_on. rewrite (String.eqb_sym e event).
      destruct (String.eqb event e) eqn:Ee; simpl; [|reflexivity].
      apply String.eqb_eq in Ee; subst e.
      rewrite set_add_mem. destruct (Nat.eqb c callback); reflexivity.
    + rewrite emit_off. rewrite (String.eqb_sym e event).
      destruct (String.eqb event e) eqn:Ee; simpl; [|reflexivity].
      apply String.eqb_eq in Ee; subst e.
      rewrite set_delete_mem. destruct (Nat.eqb c callback); reflexivity.
    + reflexivity.
  - assert (forall l, (forall e, NoDup (EventBus.emit e l)) ->
                      NoDup (EventBus.emit event (fold_left bus_step ops l))) as K.
    { induction ops as [|op ops IH]; intros l Hl; simpl; [apply Hl|].
      apply IH. intros e. destruct op as [e' c|e' c|]; simpl.
      - rewrite emit_on. destruct (String.eqb e e'); [apply set_add_nodup|]; apply Hl.
      - rewrite emit_off. destruct (String.eqb e e'); [apply set_delete_nodup|]; apply Hl.
      - constructor. }
    apply K. intros e. constructor.
Qed.

Lemma set_delete_absent s c : existsb (Nat.eqb c) s = false -> set_delete s c = s.
Proof.
  unfold set_delete. induction s as [|x s IH]; simpl; [reflexivity|].
  intros H. apply orb_false_iff in H as [H1 H2]. rewrite H1. simpl. rewrite IH by exact H2.
  reflexivity.
Qed.

Lemma set_delete_add s c : set_delete (set_add s c) c = set_delete s c.
Proof.
  unfold set_add. destruct (existsb (Nat.eqb c) s); [reflexivity|].
  unfold set_delete. rewrite filter_app. simpl. rewrite Nat.eqb_refl. simpl. apply app_nil_r.
Qed.

(** X18: the function [on] returns unsubscribes: [on(event, cb)] followed
    by it leaves every other channel as it was and takes [cb] off [event]
    (also when [cb] had been subscribed before that [on]); for a [cb] that
    was not subscribed, the bus is back to what [emit] and
    [getListenerCount] saw before. *)
Theorem eventbus_unsubscribe (l : Listeners) (event : string) (cb : nat) :
  (forall e', EventBus.emit e' (EventBus.off event cb (EventBus.on event cb l))
              = if String.eqb e' event then set_delete (EventBus.emit event l) cb
                else EventBus.emit e' l)
  /\ (existsb (Nat.eqb cb) (EventBus.emit event l) = false ->
      forall e', EventBus.emit e' (EventBus.off event cb (EventBus.on event cb l))
                 = EventBus.emit e' l
                 /\ EventBus.getListenerCount e' (EventBus.off event cb (EventBus.on event cb l))
                    = EventBus.getListenerCount e' l).
Proof.
  assert (forall e', EventBus.emit e' (EventBus.off event cb (EventBus.on event cb l))
              = if String.eqb e' event then set_delete (EventBus.emit event l) cb
                else EventBus.emit e' l) as K.
  { intros e'. rewrite emit_off. destruct (String.eqb e' event) eqn:E.
    - rewrite emit_on, String.eqb_refl. apply set_delete_add.
    - rewrite emit_on, E. reflexivity. }
  split; [exact K|]. intros H e'.
  assert (EventBus.emit e' (EventBus.off event cb (EventBus.on event cb l)) = EventBus.emit e' l)
    as K'.
  { rewrite K. destruct (String.eqb e' event) eqn:E; [|reflexivity].
    apply String.eqb_eq in E; subst e'. apply set_delete_absent, H. }
  split; [exact K'|]. rewrite !count_emit, K'. reflexivity.
Qed.

(** The bus together with the supply of fresh function objects: every
    [f.bind(this)] makes a new one. *)
Record BusWorld := mkBusWorld { bus : Listeners; next_fn : nat }.

(** [GlitchSystem.setupEventListeners]: two fresh bound callbacks. *)
Definition GlitchSystem_setupEventListeners (w : BusWorld) : BusWorld :=
  let b1 := next_fn w in
  let l1 := EventBus.on "mouse:click" b1 (bus w) in
  let b2 := S b1 in
  let l2 := EventBus.on "touch:end" b2 l1 in
  mkBusWorld l2 (S b2).

(** The [EventBus.off] calls of [GlitchSystem.dispose], each with a new
    [this.onInteraction.bind(this)]. *)
Definition GlitchSystem_dispose_listeners (w : BusWorld) : BusWorld :=
  let b1 := next_fn w in
  let l1 := EventBus.off "mouse:click" b1 (bus w) in
  let b2 := S b1 in
  let l2 := EventBus.off "touch:end" b2 l1 in
  mkBusWorld l2 (S b2).

Definition fresh_world (w : BusWorld) : Prop :=
  forall e, Forall (fun c => (c < next_fn w)%nat) (EventBus.emit e (bus w)).

Lemma off_fresh e c l : existsb (Nat.eqb c) (EventBus.emit e l) = false ->
  forall e', EventBus.emit e' (EventBus.off e c l) = EventBus.emit e' l.
Proof.
  intros H e'. rewrite emit_off. destruct (String.eqb e' e) eqn:E; [|reflexivity].
  apply String.eqb_eq in E; subst e'. apply set_delete_absent, H.
Qed.

Lemma not_mem_fresh c s : Forall (fun c' => (c' < c)%nat) s -> existsb (Nat.eqb c) s = false.
Proof.
  induction 1 as [|x s Hx _ IH]; simpl; [reflexivity|].
  rewrite IH, orb_false_r. apply Nat.eqb_neq. lia.
Qed.

Lemma setup_fresh w : fresh_world w -> fresh_world (GlitchSystem_setupEventListeners w).
Proof.
  intros H e. unfold GlitchSystem_setupEventListeners. cbn [bus next_fn].
  rewrite !emit_on.
  assert (forall s c, Forall (fun c' => (c' < next_fn w)%nat) s -> (c < S (S (next_fn w)))%nat ->
                      Forall (fun c' => (c' < S (S (next_fn w)))%nat) (set_add s c)) as A.
  { intros s c Hs Hc. unfold set_add. destruct (existsb _ _).
    - eapply Forall_impl; [|exact Hs]. simpl; intros; lia.
    - apply Forall_app; split; [eapply Forall_impl; [|exact Hs]; simpl; intros; lia|].
      constructor; [exact Hc | constructor]. }
  assert (forall s, Forall (fun c' => (c' < next_fn w)%nat) s ->
                    Forall (fun c' => (c' < S (S (next_fn w)))%nat) s) as B
    by (intros s Hs; eapply Forall_impl; [|exact Hs]; simpl; intros; lia).
  destruct (String.eqb e "touch:end") eqn:E1.
  - apply String.eqb_eq in E1; subst e. simpl.
    apply A; [apply H | lia].
  - destruct (String.eqb e "mouse:click") eqn:E2.
    + apply A; [apply H | lia].
    + apply B, H.
Qed.

(** X19: [GlitchSystem.dispose] does not unsubscribe it: each [off] gets a
    new bound function, which was never registered, so after the
    constructor and [dispose] every channel calls what it called right
    after the constructor, the two bound [onInteraction]s included. *)
Theorem glitch_dispose_keeps_listeners (w : BusWorld) (Hw : fresh_world w) :
  let w1 := GlitchSystem_setupEventListeners w in
  let w2 := GlitchSystem_dispose_listeners w1 in
  (forall e, EventBus.emit e (bus w2) = EventBus.emit e (bus w1))
  /\ In (next_fn w) (EventBus.emit "mouse:click" (bus w2))
  /\ In (S (next_fn w)) (EventBus.emit "touch:end" (bus w2)).
Proof.
  intros w1 w2.
  assert (forall e, EventBus.emit e (bus w2) = EventBus.emit e (bus w1)) as K.
  { pose proof (setup_fresh w Hw) as F.
    intros e. unfold w2, GlitchSystem_dispose_listeners. cbn [bus].
    rewrite off_fresh.
    - apply off_fresh. apply not_mem_fresh, F.
    - rewrite off_fresh by (apply not_mem_fresh, F).
      apply not_mem_fresh. eapply Forall_impl; [|apply F]. simpl. intros; lia. }
  split; [exact K|]. rewrite !K. unfold w1, GlitchSystem_setupEventListeners. cbn [bus].
  rewrite !emit_on. simpl.
  split.
  - unfold set_add. destruct (existsb _ _) eqn:E.
    + apply existsb_exists in E as (x & Hx & Ex). apply Nat.eqb_eq in Ex. subst x. exact Hx.
    + apply in_or_app. right. left. reflexivity.
  - unfold set_add. destruct (existsb (Nat.eqb (S (next_fn w))) _) eqn:E.
    + apply existsb_exists in E as (x & Hx & Ex). apply Nat.eqb_eq in Ex. subst x. exact Hx.
    + apply in_or_app. right. left. reflexivity.
Qed.

Lemma glitch_dispose_keeps_listeners_witness :
  fresh_world (mkBusWorld [] 0)
  /\ In 0%nat (EventBus.emit "mouse:click"
             (bus (GlitchSystem_dispose_listeners
                     (GlitchSystem_setupEventListeners (mkBusWorld [] 0))))).
Proof.
  assert (fresh_world (mkBusWorld [] 0)) as H by (intros e; constructor).
  split; [exact H|].
  exact (proj1 (proj2 (glitch_dispose_keeps_listeners (mkBusWorld [] 0) H))).
Defined.

(** * ObjectPool (src/src/utils/helpers.ts)

    Pooled objects are known by identity, a number; [factory] makes a new
    object each time (the next number) and [reset] keeps the identity. *)

Record ObjectPool := mkObjectPool {
  available : list nat;
  inUse : list nat;
  next_obj : nat
}.

Definition pool_factory (p : ObjectPool) : nat * ObjectPool :=
  (next_obj p, mkObjectPool (available p) (inUse p) (S (next_obj p))).

Fixpoint pool_fill (n : nat) (p : ObjectPool) : ObjectPool :=
  match n with
  | O => p
  | S n' => let (o, p1) := pool_factory p in
            pool_fill n' (mkObjectPool (available p1 ++ [o]) (inUse p1) (next_obj p1))
  end.

(** [new ObjectPool(factory, reset, initialSize)]. *)
Definition ObjectPool_new (initialSize : nat) : ObjectPool :=
  pool_fill initialSize (mkObjectPool [] [] 0).

(** [acquire]: [available.pop()] (the last element) or a new object. *)
Definition acquire (p : ObjectPool) : nat * ObjectPool :=
  match available p with
  | [] => let (o, p1) := pool_factory p in
          (o, mkObjectPool (available p1) (set_add (inUse p1) o) (next_obj p1))
  | _ :: _ => let o := last (available p) 0%nat in
              (o, mkObjectPool (removelast (available p)) (set_add (inUse p) o) (next_obj p))
  end.

Definition release (obj : nat) (p : ObjectPool) : ObjectPool :=
  if existsb (Nat.eqb obj) (inUse p)
  then mkObjectPool (available p ++ [obj]) (set_delete (inUse p) obj) (next_obj p)
  else p.

Definition releaseAll (p : ObjectPool) : ObjectPool :=
  mkObjectPool (available p ++ inUse p) [] (next_obj p).

(** [getStats]: [(available, inUse, total)]. *)
Definition getStats (p : ObjectPool) : nat * nat * nat :=
  (length (available p), length (inUse p), (length (available p) + length (inUse p))%nat).

Inductive PoolOp := PAcquire | PRelease (obj : nat) | PReleaseAll.

Definition pool_step (p : ObjectPool) (op : PoolOp) : ObjectPool :=
  match op with
  | PAcquire => snd (acquire p)
  | PRelease o => release o p
  | PReleaseAll => releaseAll p
  end.

Definition pool_run (ops : list PoolOp) (p : ObjectPool) : ObjectPool := fold_left pool_step ops p.

(** The pool's invariant: no object is twice in the two collections, or in
    both, and all come from the factory. *)
Definition pool_ok (p : ObjectPool) : Prop :=
  NoDup (available p ++ inUse p) /\ Forall (fun o => (o < next_obj p)%nat) (available p ++ inUse p).

Lemma removelast_last_split (l : list nat) :
  l <> [] -> l = removelast l ++ [last l 0%nat].
Proof. intros H. apply app_removelast_last, H. Qed.

Lemma nodup_app_inv (a b : list nat) : NoDup (a ++ b) -> NoDup a /\ NoDup b /\ (forall x, In x a -> ~ In x b).
Proof.
  intros H. split; [eapply NoDup_app_remove_r; exact H|].
  split; [eapply NoDup_app_remove_l; exact H|].
  induction a as [|y a IH]; [intros x []|].
  simpl in H. inversion H as [|? ? Hy Hr]; subst.
  intros x [<-|Hx] Hb.
  - apply Hy, in_or_app. right. exact Hb.
  - exact (IH Hr x Hx Hb).
Qed.

Lemma pool_fill_ok n p : pool_ok p -> pool_ok (pool_fill n p).
Proof.
  revert p. induction n as [|n IH]; intros p [Hd Hf]; simpl; [split; assumption|].
  assert (forall x, In x (available p ++ inUse p) -> (x < next_obj p)%nat) as Hb
    by (rewrite Forall_forall in Hf; exact Hf).
  apply IH. split; cbn [available inUse next_obj].
  - rewrite <- app_assoc. apply nodup_app_inv in Hd as (Ha & Hu & Hdis).
    apply NoDup_app; [exact Ha | |].
    + simpl. constructor; [|exact Hu].
      intros Hin. assert (next_obj p < next_obj p)%nat; [|lia].
      apply Hb, in_or_app. right. exact Hin.
    + intros x Hx [<-|Hx'].
      * assert (next_obj p < next_obj p)%nat; [|lia]. apply Hb, in_or_app. left. exact Hx.
      * exact (Hdis x Hx Hx').
  - rewrite <- app_assoc. apply Forall_app in Hf as [Ha Hu].
    apply Forall_app. split; [eapply Forall_impl; [|exact Ha]; simpl; intros; lia|].
    apply Forall_app. split; [constructor; [lia | constructor]|].
    eapply Forall_impl; [|exact Hu]; simpl; intros; lia.
Qed.

Lemma not_in_existsb o s : ~ In o s -> existsb (Nat.eqb o) s = false.
Proof.
  intros H. destruct (existsb (Nat.eqb o) s) eqn:E; [|reflexivity].
  apply existsb_exists in E as (y & Hy & Ey). apply Nat.eqb_eq in Ey. subst y. contradiction.
Qed.

Lemma in_existsb o s : existsb (Nat.eqb o) s = true <-> In o s.
Proof.
  rewrite existsb_exists. split.
  - intros (y & Hy & Ey). apply Nat.eqb_eq in Ey. subst y. exact Hy.
  - intros H. exists o. split; [exact H | apply Nat.eqb_refl].
Qed.

Lemma acquire_spec p : pool_ok p ->
  let (o, p') := acquire p in
  ~ In o (inUse p) /\ inUse p' = inUse p ++ [o]
  /\ (available p = [] -> available p' = [] /\ next_obj p' = S (next_obj p) /\ o = next_obj p)
  /\ (available p <> [] -> available p ++ [] = available p' ++ [o] /\ next_obj p' = next_obj p)
  /\ pool_ok p'.
Proof.
  intros [Hd Hf]. unfold acquire.
  destruct (available p) as [|a0 av] eqn:Ea; cbn [pool_factory available inUse next_obj fst snd].
  - simpl in Hd, Hf.
    assert (~ In (next_obj p) (inUse p)) as Hn
      by (intros Hin; rewrite Forall_forall in Hf; specialize (Hf _ Hin); lia).
    unfold set_add. rewrite (not_in_existsb _ _ Hn).
    split; [exact Hn|]. split; [reflexivity|]. split; [auto|].
    split; [intros C; congruence|].
    split; simpl; rewrite ?Ea; simpl.
    + apply NoDup_app; [exact Hd | repeat constructor; intros [] | ].
      intros x Hx [<-|[]]. exact (Hn Hx).
    + apply Forall_app. split; [eapply Forall_impl; [|exact Hf]; simpl; intros; lia|].
      constructor; [lia | constructor].
  - set (l := a0 :: av) in *.
    assert (l <> []) as Hl by discriminate.
    pose proof (removelast_last_split l Hl) as Es.
    set (o := last l 0%nat) in *. set (r := removelast l) in *.
    rewrite Es in Hd, Hf.
    rewrite <- app_assoc in Hd, Hf. simpl in Hd, Hf.
    apply nodup_app_inv in Hd as (Hr & Hou & Hdis).
    inversion Hou as [|? ? Ho Hu]; subst.
    unfold set_add. rewrite (not_in_existsb _ _ Ho).
    split; [exact Ho|]. split; [reflexivity|]. split; [intros C; discriminate|].
    split; [intros _; rewrite app_nil_r; split; [exact Es | reflexivity]|].
    split; cbn [available inUse next_obj].
    + apply NoDup_app; [exact Hr | |].
      * apply NoDup_app; [exact Hu | repeat constructor; intros [] |].
        intros x Hx [<-|[]]. exact (Ho Hx).
      * intros x Hx Hx'. apply (Hdis x Hx). apply in_app_or in Hx' as [H|[H|[]]].
        -- right; exact H.
        -- left; exact H.
    + apply Forall_app in Hf as [H1 H2]. inversion H2 as [|? ? H3 H4]; subst.
      apply Forall_app. split; [exact H1|]. apply Forall_app. split; [exact H4|].
      constructor; [exact H3 | constructor].
Qed.

Lemma release_ok o p : pool_ok p -> pool_ok (release o p).
Proof.
  intros [Hd Hf]. unfold release.
  destruct (existsb (Nat.eqb o) (inUse p)) eqn:E; [|split; assumption].
  apply in_existsb in E.
  apply nodup_app_inv in Hd as (Ha & Hu & Hdis).
  split; cbn [available inUse next_obj].
  - rewrite <- app_assoc. apply NoDup_app; [exact Ha| |].
    + simpl. constructor; [|apply set_delete_nodup, Hu].
      unfold set_delete. rewrite filter_In, Nat.eqb_refl. intros [_ C]. discriminate.
    + intros x Hx [->|Hx'].
      * exact (Hdis x Hx E).
      * unfold set_delete in Hx'. apply filter_In in Hx' as [Hx' _]. exact (Hdis x Hx Hx').
  - apply Forall_app in Hf as [H1 H2]. rewrite Forall_forall in H2.
    rewrite <- app_assoc. apply Forall_app. split; [exact H1|].
    constructor; [apply H2, E|].
    apply Forall_forall. intros x Hx. unfold set_delete in Hx. apply filter_In in Hx as [Hx _].
    apply H2, Hx.
Qed.

Lemma pool_run_ok ops p : pool_ok p -> pool_ok (pool_run ops p).
Proof.
  unfold pool_run. revert p. induction ops as [|op ops IH]; intros p H; simpl; [exact H|].
  apply IH. destruct op as [|o|]; simpl.
  - pose proof (acquire_spec p H) as K. destruct (acquire p) as [o p']. simpl. tauto.
  - apply release_ok, H.
  - destruct H as [Hd Hf]. split; simpl; rewrite app_nil_r; assumption.
Qed.

Lemma ObjectPool_new_ok n : pool_ok (ObjectPool_new n).
Proof. apply pool_fill_ok. split; constructor. Qed.

Lemma set_delete_length s o : NoDup s -> In o s -> length (set_delete s o) = pred (length s).
Proof.
  unfold set_delete. induction s as [|x s IH]; intros Hd Hin; [destruct Hin|].
  inversion Hd as [|? ? Hx Hs]; subst. simpl.
  destruct (Nat.eqb o x) eqn:E; simpl.
  - apply Nat.eqb_eq in E. subst x.
    assert (forall l, ~ In o l -> filter (fun c => negb (Nat.eqb o c)) l = l) as F.
    { induction l as [|y l IHl]; intros Hy; simpl; [reflexivity|].
      destruct (Nat.eqb o y) eqn:Ey.
      - apply Nat.eqb_eq in Ey. subst y. exfalso. apply Hy. left. reflexivity.
      - simpl. rewrite IHl; [reflexivity|]. intros C. apply Hy. right. exact C. }
    rewrite F by exact Hx. reflexivity.
  - destruct Hin as [<-|Hin]; [rewrite Nat.eqb_refl in E; discriminate|].
    rewrite IH by assumption. destruct s; [destruct Hin|]. reflexivity.
Qed.

(** X20: in every pool built by [new ObjectPool(...)] and used through
    [acquire], [release] and [releaseAll], no object is both available and
    in use, none is stored twice, and [acquire] hands out an object that is
    not in use: the pool never lends the same object twice. *)
Theorem pool_never_lends_twice (n : nat) (ops : list PoolOp) :
  let p := pool_run ops (ObjectPool_new n) in
  NoDup (available p ++ inUse p)
  /\ ~ In (fst (acquire p)) (inUse p)
  /\ inUse (snd (acquire p)) = inUse p ++ [fst (acquire p)].
Proof.
  intros p. pose proof (pool_run_ok ops _ (ObjectPool_new_ok n)) as H. fold p in H.
  pose proof (acquire_spec p H) as K. destruct (acquire p) as [o p'] eqn:E. cbn [fst snd].
  split; [apply H|]. tauto.
Qed.

Ltac pair_lia := repeat match goal with |- (_, _) = (_, _) => f_equal end; lia.

(** X21: [getStats] over the pool operations: [acquire] adds one object in
    use and grows the total only when nothing was available; [release] of
    an object in use moves it back (total kept) and of any other object
    changes nothing; [releaseAll] makes everything available, the lent
    objects pushed after the available ones, total kept. *)
Theorem pool_stats_ops (n : nat) (ops : list PoolOp) (o : nat) :
  let p := pool_run ops (ObjectPool_new n) in
  let '(av, iu, tot) := getStats p in
  getStats (snd (acquire p))
    = (pred av, S iu, (if Nat.eqb av 0 then S tot else tot))
  /\ (In o (inUse p) -> getStats (release o p) = (S av, pred iu, tot))
  /\ (~ In o (inUse p) -> release o p = p)
  /\ getStats (releaseAll p) = (tot, 0%nat, tot)
  /\ available (releaseAll p) = available p ++ inUse p.
Proof.
  intros p. pose proof (pool_run_ok ops _ (ObjectPool_new_ok n)) as H. fold p in H.
  unfold getStats at 1.
  split; [|split; [|split; [|split]]].
  - pose proof (acquire_spec p H) as K. destruct (acquire p) as [o' p'] eqn:E. cbn [snd].
    destruct K as (_ & K2 & K3 & K4 & _). unfold getStats. rewrite K2, length_app. simpl.
    destruct (available p) as [|a av] eqn:Ea.
    + destruct (K3 eq_refl) as (-> & _). simpl. pair_lia.
    + specialize (K4 ltac:(discriminate)) as [K4 _]. rewrite app_nil_r in K4.
      apply (f_equal (@length nat)) in K4. rewrite length_app in K4. simpl in K4.
      simpl. pair_lia.
  - intros Hin. unfold release. apply in_existsb in Hin as Hb. rewrite Hb.
    unfold getStats. cbn [available inUse]. rewrite length_app.
    destruct H as [Hd _]. apply nodup_app_inv in Hd as (_ & Hu & _).
    rewrite (set_delete_length _ _ Hu Hin).
    destruct (inUse p) eqn:Eu; [destruct Hin|]. simpl. pair_lia.
  - intros Hn. unfold release. rewrite (not_in_existsb _ _ Hn). reflexivity.
  - unfold getStats, releaseAll. cbn [available inUse]. rewrite length_app. simpl.
    pair_lia.
  - reflexivity.
Qed.

(** * ParticleSystem's pool (src/src/systems/InteractionController.ts)

    [particleCount] is [Settings.device.particleCount]; the particles are
    known by their pool identity. *)

Record ParticleSystem := mkParticleSystem {
  particlePool : ObjectPool;
  activeParticles : list nat
}.

(** [initializeParticles]: [particleCount] times [acquire] and push. *)
Fixpoint initializeParticles (n : nat) (pool : ObjectPool) (active : list nat)
  : ObjectPool * list nat :=
  match n with
  | O => (pool, active)
  | S n' => let (o, pool1) := acquire pool in initializeParticles n' pool1 (active ++ [o])
  end.

Definition ParticleSystem_new (particleCount : nat) : ParticleSystem :=
  let (pool, active) := initializeParticles particleCount (ObjectPool_new particleCount) [] in
  mkParticleSystem pool active.

Definition getPoolStats (ps : ParticleSystem) : nat * nat * nat := getStats (particlePool ps).

Definition ParticleSystem_dispose (ps : ParticleSystem) : ParticleSystem :=
  mkParticleSystem (releaseAll (particlePool ps)) [].

Lemma pool_fill_shape n p :
  length (available (pool_fill n p)) = (length (available p) + n)%nat
  /\ inUse (pool_fill n p) = inUse p /\ next_obj (pool_fill n p) = (next_obj p + n)%nat.
Proof.
  revert p. induction n as [|n IH]; intros p; simpl; [repeat split; lia|].
  destruct (IH (mkObjectPool (available p ++ [next_obj p]) (inUse p) (S (next_obj p))))
    as (A & B & C).
  rewrite A, B, C. cbn [available inUse next_obj]. rewrite length_app. simpl.
  repeat split; lia.
Qed.

Lemma initializeParticles_spec k p act :
  pool_ok p -> inUse p = act -> (k <= length (available p))%nat ->
  let (p', act') := initializeParticles k p act in
  pool_ok p' /\ inUse p' = act'
  /\ length (available p') = (length (available p) - k)%nat /\ next_obj p' = next_obj p
  /\ length act' = (length act + k)%nat.
Proof.
  revert p act. induction k as [|k IH]; intros p act Hp Ha Hk; simpl.
  - split; [exact Hp|]. repeat split; try assumption; lia.
  - pose proof (acquire_spec p Hp) as K. destruct (acquire p) as [o p1] eqn:E.
    destruct K as (_ & K2 & _ & K4 & K5).
    assert (available p <> []) as Hne by (intros C; rewrite C in Hk; simpl in Hk; lia).
    destruct (K4 Hne) as [L N].
    assert (length (available p1) = pred (length (available p))) as Hl.
    { apply (f_equal (@length nat)) in L. rewrite !length_app in L. simpl in L. lia. }
    specialize (IH p1 (act ++ [o]) K5 ltac:(rewrite K2, Ha; reflexivity) ltac:(lia)).
    destruct (initializeParticles k p1 (act ++ [o])) as [p' act'].
    destruct IH as (I1 & I2 & I3 & I4 & I5). rewrite length_app in I5. simpl in I5.
    split; [exact I1|]. repeat split; try assumption; lia.
Qed.

(** X22: a new ParticleSystem lends out its whole pool: [getPoolStats]
    gives [(0, particleCount, particleCount)], the active particles are
    [particleCount] distinct pooled objects, the ones in use, and none was
    made beyond the initial ones; after [dispose] the stats are
    [(particleCount, 0, particleCount)] and no particle is active. *)
Theorem particle_pool_lifecycle (particleCount : nat) :
  let ps := ParticleSystem_new particleCount in
  getPoolStats ps = (0%nat, particleCount, particleCount)
  /\ NoDup (activeParticles ps) /\ length (activeParticles ps) = particleCount
  /\ activeParticles ps = inUse (particlePool ps)
  /\ next_obj (particlePool ps) = particleCount
  /\ getPoolStats (ParticleSystem_dispose ps) = (particleCount, 0%nat, particleCount)
  /\ activeParticles (ParticleSystem_dispose ps) = [].
Proof.
  intros ps. unfold ps, ParticleSystem_new.
  destruct (pool_fill_shape particleCount (mkObjectPool [] [] 0)) as (A & B & C).
  cbn [available inUse next_obj length] in A, B, C.
  pose proof (initializeParticles_spec particleCount (ObjectPool_new particleCount) []
                (ObjectPool_new_ok particleCount) B ltac:(unfold ObjectPool_new; lia)) as K.
  destruct (initializeParticles particleCount (ObjectPool_new particleCount) []) as [p act].
  destruct K as ([Hd _] & K2 & K3 & K4 & Hlen). simpl in Hlen.
  unfold ObjectPool_new in K3, K4. rewrite A in K3. rewrite C in K4.
  assert (available p = []) as E0 by (apply length_zero_iff_nil; lia).
  simpl in K4.
  rewrite E0 in Hd. simpl in Hd. rewrite K2 in Hd.
  unfold getPoolStats, getStats, ParticleSystem_dispose, releaseAll. cbn [particlePool activeParticles available inUse].
  rewrite E0, K2, Hlen. simpl. rewrite Hlen.
  repeat split; try assumption; try reflexivity. rewrite Nat.add_0_r. reflexivity.
Qed.

(** * PreferencesManager (src/src/utils/helpers.ts)

    [prefs] is an object literal: a property read [prefs[key]] finds an own
    property or else one of [Object.prototype]. The copy to [localStorage]
    made by [save] is left out. *)

Inductive JsVal (A : Type) := Undefined | Val (v : A) | Builtin (name : string).
Arguments Undefined {A}.
Arguments Val {A} v.
Arguments Builtin {A} name.

(** The properties of [Object.prototype]. *)
Definition object_prototype_keys : list string :=
  ["constructor"; "__defineGetter__"; "__defineSetter__"; "hasOwnProperty";
   "__lookupGetter__"; "__lookupSetter__"; "isPrototypeOf"; "propertyIsEnumerable";
   "toString"; "valueOf"; "__proto__"; "toLocaleString"]%string.

Section Preferences.

Variable A : Type.

Definition Prefs := list (string * JsVal A).

Definition prop_get (prefs : Prefs) (key : string) : JsVal A :=
  match map_get key prefs with
  | Some v => v
  | None => if existsb (String.eqb key) object_prototype_keys then Builtin key else Undefined
  end.

Definition is_undefined (v : JsVal A) : bool :=
  match v with Undefined => true | _ => false end.

Definition prefs_get (prefs : Prefs) (key : string) (defaultValue : A) : JsVal A :=
  if negb (is_undefined (prop_get prefs key)) then prop_get prefs key else Val defaultValue.

(** [prefs[key] = value]; for ["__proto__"] the assignment goes to the
    prototype setter and makes no own property (a new prototype object is
    not modelled). *)
Definition prefs_set (prefs : Prefs) (key : string) (value : JsVal A) : Prefs :=
  if String.eqb key "__proto__" then prefs else map_set key value prefs.

Definition prefs_has (prefs : Prefs) (key : string) : bool :=
  negb (is_undefined (prop_get prefs key)).

Definition prefs_remove (prefs : Prefs) (key : string) : Prefs := map_delete key prefs.

Definition prefs_clear (prefs : Prefs) : Prefs := [].

End Preferences.

Arguments prefs_get {A} prefs key defaultValue.
Arguments prefs_set {A} prefs key value.
Arguments prefs_has {A} prefs key.
Arguments prefs_remove {A} prefs key.
Arguments prefs_clear {A} prefs.
Arguments prop_get {A} prefs key.

Lemma map_get_delete {V} k' k (m : list (string * V)) :
  map_get k' (map_delete k m) = if String.eqb k' k then None else map_get k' m.
Proof.
  unfold map_delete. induction m as [|[k0 v0] m IH]; simpl;
    [destruct (String.eqb k' k); reflexivity|].
  destruct (String.eqb k k0) eqn:E0; simpl.
  - apply String.eqb_eq in E0; subst k0. rewrite IH.
    destruct (String.eqb k' k); reflexivity.
  - rewrite IH. destruct (String.eqb k' k0) eqn:E1; [|reflexivity].
    apply String.eqb_eq in E1; subst k0. rewrite String.eqb_sym, E0. reflexivity.
Qed.

(** X23: for a key that is no property name of [Object.prototype], the
    preferences behave as a store with a default: [get] after [set(key, v)]
    gives [v] and [has] is true; after [set(key, undefined)], [remove(key)]
    or [clear()] [has] is false and [get] gives the default; other keys are
    not affected by [set] or [remove]. *)
Theorem prefs_store (A : Type) (p : Prefs A) (key key' : string) (v : JsVal A) (x d : A)
  (Hkey : existsb (String.eqb key) object_prototype_keys = false) :
  prefs_get (prefs_set p key (Val x)) key d = Val x
  /\ prefs_has (prefs_set p key (Val x)) key = true
  /\ prefs_has (prefs_set p key Undefined) key = false
  /\ prefs_get (prefs_set p key Undefined) key d = Val d
  /\ prefs_has (prefs_remove p key) key = false
  /\ prefs_get (prefs_remove p key) key d = Val d
  /\ prefs_has (prefs_clear p) key = false
  /\ (key' <> key -> prefs_get (prefs_set p key v) key' d = prefs_get p key' d
                     /\ prefs_get (prefs_remove p key) key' d = prefs_get p key' d).
Proof.
  assert (String.eqb key "__proto__" = false) as Hp.
  { destruct (String.eqb key "__proto__") eqn:E; [|reflexivity].
    apply String.eqb_eq in E; subst key. discriminate. }
  unfold prefs_get, prefs_has, prefs_set, prefs_remove, prefs_clear, prop_get.
  rewrite Hp, !map_get_set, map_get_delete, String.eqb_refl. simpl map_get.
  rewrite Hkey. do 7 (split; [reflexivity|]).
  intros Hne. apply String.eqb_neq in Hne. rewrite map_get_delete, Hne. split; reflexivity.
Qed.

Lemma prefs_store_witness :
  existsb (String.eqb "volume") object_prototype_keys = false
  /\ prefs_get (prefs_set (@nil (string * JsVal nat)) "volume" (Val 7%nat)) "volume" 5%nat
     = Val 7%nat.
Proof.
  assert (existsb (String.eqb "volume") object_prototype_keys = false) as H by reflexivity.
  split; [exact H|].
  exact (proj1 (prefs_store nat [] "volume" "volume" Undefined 7%nat 5%nat H)).
Defined.

(** X24: a key that names a property of [Object.prototype] (such as
    ["toString"] or ["constructor"]) and was never set is not missing:
    [has] is true and [get] returns the built-in instead of the default,
    and neither [remove] nor [clear] changes that. *)
Theorem prefs_prototype_keys (A : Type) (p : Prefs A) (key : string) (d : A)
  (Hkey : In key object_prototype_keys) (Hown : map_get key p = None) :
  prefs_has p key = true /\ prefs_get p key d = Builtin key
  /\ prefs_has (prefs_remove p key) key = true /\ prefs_has (prefs_clear p) key = true.
Proof.
  assert (existsb (String.eqb key) object_prototype_keys = true) as Hb
    by (apply existsb_exists; exists key; split; [exact Hkey | apply String.eqb_refl]).
  unfold prefs_get, prefs_has, prefs_remove, prefs_clear, prop_get.
  rewrite map_get_delete, String.eqb_refl, Hown. simpl map_get. rewrite Hb.
  repeat split; reflexivity.
Qed.

Lemma prefs_prototype_keys_witness :
  In "toString"%string object_prototype_keys
  /\ map_get "toString" (@nil (string * JsVal nat)) = None
  /\ prefs_get (@nil (string * JsVal nat)) "toString" 1%nat = Builtin "toString".
Proof.
  assert (In "toString"%string object_prototype_keys) as H1 by (simpl; tauto).
  assert (map_get "toString" (@nil (string * JsVal nat)) = None) as H2 by reflexivity.
  split; [exact H1|]. split; [exact H2|].
  exact (proj1 (proj2 (prefs_prototype_keys nat [] "toString" 1%nat H1 H2))).
Defined.

(** * Pause handling (src/unnamed/part_003 UIController, src/src/Application.ts)

    The space key makes InteractionController emit ['game:toggle_pause'],
    handled by [UIController.togglePause], whose ['game:pause'] and
    ['game:resume'] set [Application.isPaused].  A frame of
    [Application.animate] renders only while paused; otherwise it takes
    [clock.getDelta()] (the time since the previous call) and runs the
    narrative update, whose ['narrative:ending'] makes
    [UIController.onEnding] set [ENDED].  The other listeners of the
    narrative channels leave these fields alone. *)

Inductive GameState := LOADING | INTRO | PLAYING | PAUSED | ENDED.

Definition GameState_eqb (a b : GameState) : bool :=
  match a, b with
  | LOADING, LOADING | INTRO, INTRO | PLAYING, PLAYING | PAUSED, PAUSED | ENDED, ENDED => true
  | _, _ => false
  end.

Record AppState := mkAppState {
  gameState : GameState;
  isPaused : bool;
  clock_last : Q;
  narrative : NarrativeSystem
}.

Inductive AppEvent := SpaceKey | Frame (now : Q).

Definition togglePause (a : AppState) : AppState :=
  match gameState a with
  | PLAYING => mkAppState PAUSED true (clock_last a) (narrative a)
  | PAUSED => mkAppState PLAYING false (clock_last a) (narrative a)
  | _ => a
  end.

Definition animate (now : Q) (a : AppState) : AppState :=
  if isPaused a then a
  else
    let deltaTime := now - clock_last a in
    let (ns, es) := update deltaTime (narrative a) in
    mkAppState (if Nat.ltb 0 (count_endings es) then ENDED else gameState a)
               (isPaused a) now ns.

Definition app_step (a : AppState) (ev : AppEvent) : AppState :=
  match ev with
  | SpaceKey => togglePause a
  | Frame now => animate now a
  end.

Definition app_run (evs : list AppEvent) (a : AppState) : AppState := fold_left app_step evs a.

Definition pause_consistent (a : AppState) : Prop :=
  isPaused a = GameState_eqb (gameState a) PAUSED.

(** X25: with the pause flag in step with the UI state, any sequence of
    space presses and frames keeps it so; once the ending screen is shown
    the space key no longer pauses and the state stays [ENDED]; and the
    narrative clock advances by exactly the wall-clock time between the
    first and the last unpaused frames, the time spent paused included,
    since the first frame after a resume takes the whole gap as its
    [deltaTime]. *)
Theorem app_pause_clock (evs : list AppEvent) (a : AppState) (Hc : pause_consistent a) :
  let a' := app_run evs a in
  pause_consistent a'
  /\ (gameState a = ENDED -> gameState a' = ENDED /\ isPaused a' = false)
  /\ timeElapsed (state (narrative a')) == timeElapsed (state (narrative a))
                                          + (clock_last a' - clock_last a).
Proof.
  unfold app_run. revert a Hc. induction evs as [|ev evs IH]; intros a Hc; simpl.
  - split; [exact Hc|]. split; [intros E; split; [exact E|]; unfold pause_consistent in Hc;
      rewrite Hc, E; reflexivity | lra].
  - assert (pause_consistent (app_step a ev)
            /\ (gameState a = ENDED -> gameState (app_step a ev) = ENDED)
            /\ timeElapsed (state (narrative (app_step a ev)))
               == timeElapsed (state (narrative a)) + (clock_last (app_step a ev) - clock_last a))
      as (S1 & S2 & S3).
    { unfold pause_consistent in *. destruct ev as [|now]; simpl.
      - unfold togglePause. destruct (gameState a) eqn:E; simpl; rewrite ?E;
          (split; [try reflexivity; try exact Hc|split; [intros; try discriminate; reflexivity|lra]]).
      - unfold animate. destruct (isPaused a) eqn:P.
        + split; [congruence|]. split; [auto|lra].
        + pose proof (update_keeps (now - clock_last a) (narrative a)) as (_ & _ & T & _).
          destruct (update (now - clock_last a) (narrative a)) as [ns es]. simpl in T |- *.
          split.
          * destruct (Nat.ltb 0 (count_endings es)); simpl; [reflexivity | congruence].
          * split; [intros E; rewrite E; destruct (Nat.ltb _ _); reflexivity|].
            rewrite T. lra. }
    destruct (IH (app_step a ev) S1) as (I1 & I2 & I3).
    split; [exact I1|]. split; [intros E; apply I2, S2, E|].
    rewrite I3, S3. lra.
Qed.

Lemma app_pause_clock_witness :
  pause_consistent (mkAppState PLAYING false 0 init)
  /\ timeElapsed (state (narrative (app_run [SpaceKey; Frame 3; SpaceKey; Frame 10]
                                            (mkAppState PLAYING false 0 init))))
     == timeElapsed (state (narrative (mkAppState PLAYING false 0 init)))
        + (clock_last (app_run [SpaceKey; Frame 3; SpaceKey; Frame 10]
                               (mkAppState PLAYING false 0 init))
           - clock_last (mkAppState PLAYING false 0 init)).
Proof.
  assert (pause_consistent (mkAppState PLAYING false 0 init)) as H by reflexivity.
  split; [exact H|].
  exact (proj2 (proj2 (app_pause_clock [SpaceKey; Frame 3; SpaceKey; Frame 10] _ H))).
Defined.

(** * PerformanceMonitor (src/src/utils/helpers.ts)

    [performance.now()] is passed in as [currentTime]. *)

Record PerformanceMonitor := mkPerformanceMonitor {
  frameCount : nat;
  lastTime : Q;
  fps : Q;
  frameTimes : list Q
}.

Definition maxFrameTimes : nat := 60.

Definition perf_update (currentTime : Q) (pm : PerformanceMonitor) : PerformanceMonitor * Q :=
  let fc := S (frameCount pm) in
  let delta := currentTime - lastTime pm in
  let ft := frameTimes pm ++ [delta] in
  let ft := if Nat.ltb maxFrameTimes (length ft) then tl ft else ft in
  if Qle_bool 1000 delta
  then let f := inject_Z (Z.of_nat fc) * 1000 / delta in
       (mkPerformanceMonitor 0 currentTime f ft, f)
  else (mkPerformanceMonitor fc (lastTime pm) (fps pm) ft, fps pm).

Fixpoint perf_run (times : list Q) (pm : PerformanceMonitor) : PerformanceMonitor :=
  match times with
  | [] => pm
  | t :: times' => perf_run times' (fst (perf_update t pm))
  end.

(** X26: [frameTimes] never holds more than 60 entries, and what it
    records is the time since the last FPS refresh, not since the previous
    frame: frames that come within 1000 ms of [lastTime] each push
    [currentTime - lastTime], measured from the same [lastTime], so their
    entries grow with every frame (and [frameCount] counts them). *)
Theorem perf_frame_times (pm : PerformanceMonitor) (times : list Q)
  (Hwin : Forall (fun t => t - lastTime pm < 1000) times)
  (Hroom : (length (frameTimes pm) + length times <= maxFrameTimes)%nat) :
  frameTimes (perf_run times pm) = frameTimes pm ++ List.map (fun t => t - lastTime pm) times
  /\ frameCount (perf_run times pm) = (frameCount pm + length times)%nat
  /\ lastTime (perf_run times pm) = lastTime pm
  /\ ((length (frameTimes pm) <= maxFrameTimes)%nat ->
      forall times', (length (frameTimes (perf_run times' pm)) <= maxFrameTimes)%nat).
Proof.
  split; [|split; [|split]].
  - revert pm Hwin Hroom. induction times as [|t times IH]; intros pm Hwin Hroom; simpl.
    + rewrite app_nil_r. reflexivity.
    + inversion Hwin as [|? ? Ht Hts]; subst. simpl in Hroom.
      unfold perf_update.
      rewrite length_app. simpl.
      replace (Nat.ltb maxFrameTimes (length (frameTimes pm) + 1)) with false
        by (symmetry; apply Nat.ltb_ge; lia).
      replace (Qle_bool 1000 (t - lastTime pm)) with false
        by (symmetry; destruct (js_le_cases 1000 (t - lastTime pm)) as [[A _]|[_ B]];
            [lra | exact B]).
      cbn [fst]. rewrite IH; cbn [frameTimes lastTime].
      * rewrite <- app_assoc. reflexivity.
      * exact Hts.
      * rewrite length_app. simpl. lia.
  - revert pm Hwin Hroom. induction times as [|t times IH]; intros pm Hwin Hroom; simpl; [lia|].
    inversion Hwin as [|? ? Ht Hts]; subst. simpl in Hroom. unfold perf_update.
    replace (Qle_bool 1000 (t - lastTime pm)) with false
      by (symmetry; destruct (js_le_cases 1000 (t - lastTime pm)) as [[A _]|[_ B]];
          [lra | exact B]).
    cbn [fst]. rewrite IH; cbn [frameCount lastTime frameTimes]; [lia | exact Hts |].
    destruct (Nat.ltb _ _); [rewrite length_tl|]; rewrite length_app; simpl; lia.
  - revert pm Hwin Hroom. induction times as [|t times IH]; intros pm Hwin Hroom; simpl;
      [reflexivity|].
    inversion Hwin as [|? ? Ht Hts]; subst. simpl in Hroom. unfold perf_update.
    replace (Qle_bool 1000 (t - lastTime pm)) with false
      by (symmetry; destruct (js_le_cases 1000 (t - lastTime pm)) as [[A _]|[_ B]];
          [lra | exact B]).
    cbn [fst]. rewrite IH; cbn [frameCount lastTime frameTimes]; [reflexivity | exact Hts |].
    destruct (Nat.ltb _ _); [rewrite length_tl|]; rewrite length_app; simpl; lia.
  - clear. intros Hl times'. revert pm Hl. induction times' as [|t times IH]; intros pm Hl;
      simpl; [exact Hl|].
    apply IH. unfold perf_update.
    destruct (Nat.ltb maxFrameTimes (length (frameTimes pm ++ [t - lastTime pm]))) eqn:E.
    + destruct (Qle_bool _ _); cbn [fst frameTimes]; rewrite length_tl, length_app;
        simpl; unfold maxFrameTimes in *; lia.
    + apply Nat.ltb_ge in E.
      destruct (Qle_bool _ _); cbn [fst frameTimes]; exact E.
Qed.

Lemma perf_frame_times_witness :
  Forall (fun t => t - 0 < 1000) [16; 33; 50]
  /\ (length (@nil Q) + length [16; 33; 50] <= maxFrameTimes)%nat
  /\ frameTimes (perf_run [16; 33; 50] (mkPerformanceMonitor 0 0 60 []))
     = [] ++ List.map (fun t => t - 0) [16; 33; 50].
Proof.
  assert (Forall (fun t => t - 0 < 1000) [16; 33; 50]) as H1
    by (repeat constructor; reflexivity).
  assert ((length (@nil Q) + length [16; 33; 50] <= maxFrameTimes)%nat) as H2
    by (unfold maxFrameTimes; simpl; lia).
  split; [exact H1|]. split; [exact H2|].
  exact (proj1 (perf_frame_times (mkPerformanceMonitor 0 0 60 []) [16; 33; 50] H1 H2)).
Defined.
